(** * mov.db: the catalog store and the query functions of the movie catalog

    A shallow embedding of [movie_storage/movies_storage_sql.py] (the SQL
    store and [add_movie]) and of the query functions of [movies.py]
    (statistics, random pick, search, the two manual sorts).

    Conventions of the embedding.
    - A Python [str] is a [string]; [str.lower] is modelled on ASCII letters.
    - The [year] column (SQLite INTEGER, a Python [int]) is a [Z].
    - The [rating] column (SQLite REAL, a finite Python [float]) is a [Q]:
      the functions below only compare ratings ([>], [<], [==]), and on
      finite floats these comparisons are those of the rationals.  Python's
      [==] on ratings is [Qeq] (decided by [Qeq_bool]).
    - The dict returned by [get_movies] is an association list in insertion
      order, which is the order [dict.items()] iterates in.
    - A Python exception is a value of [Exc]; code that can raise returns a
      [Res]; a [while] loop that may not terminate takes fuel, and [None]
      means that the loop is still running when the fuel is spent.
    - Every string a function returns is a [Line]: the fixed messages are
      kept as text, the f-strings as a constructor holding their fields. *)

From Stdlib Require Import List String Ascii Bool ZArith QArith Qround Lia Lqa.
From Stdlib Require Import Permutation Sorted.
Import ListNotations.

Local Open Scope string_scope.
Local Open Scope Z_scope.

(** ** Exceptions and results *)

Inductive Exc : Type :=
| ZeroDivisionError
| IndexError
| ValueError
| EOFError
| FileNotFoundError
| JSONDecodeError
| PermissionError
| KeyError (key : string)
| ConnectionError (detail : string)
| OtherError (detail : string).

Inductive Res (A : Type) : Type :=
| Return (a : A)
| Raise (e : Exc).

Arguments Return {A} a.
Arguments Raise {A} e.

Definition bind {A B : Type} (c : Res A) (k : A -> Res B) : Res B :=
  match c with
  | Return a => k a
  | Raise e => Raise e
  end.

Notation "x <- c ;; k" := (bind c (fun x => k))
  (at level 61, c at next level, right associativity).

(** ** Snapshots and entries *)

(** The value [{"year": row[1], "rating": row[2]}] of the dict of
    [get_movies]. *)
Record Info : Type := mkInfo { year : Z; rating : Q }.

(** [movies.items()]: the pairs (title, infos) in insertion order. *)
Definition Movies : Type := list (string * Info).

(** The tuple [(movie, infos['year'], infos['rating'])] of the sorts. *)
Record Entry : Type := mkEntry { e_title : string; e_year : Z; e_rating : Q }.

Definition entry_of (m : string * Info) : Entry :=
  mkEntry (fst m) (year (snd m)) (rating (snd m)).

(** [[(movie, infos['year'], infos['rating']) for movie, infos in movies.items()]] *)
Definition entries (movies : Movies) : list Entry := map entry_of movies.

(** Python's [==] on two such tuples: componentwise [==]. *)
Definition Entry_eqb (a b : Entry) : bool :=
  String.eqb (e_title a) (e_title b)
  && Z.eqb (e_year a) (e_year b)
  && Qeq_bool (e_rating a) (e_rating b).

(** Python's [>] on ratings and on years. *)
Definition Qgtb (a b : Q) : bool := negb (Qle_bool a b).
Definition Zgtb (a b : Z) : bool := Z.ltb b a.

(** ** Returned strings *)

Definition EMPTY_DB : string := "Database is empty, add movies to database.".
Definition EMPTY_DB_BOLD : string := "[1mDatabase is empty, add movies to database.".
Definition FILE_NOT_FOUND : string := "Database file not found!".
Definition FILE_CORRUPTED : string := "Database file is corrupted!".
Definition NO_PERMISSION : string := "No permission to access database!".

Inductive Line : Type :=
| Text (s : string)
    (* a fixed message *)
| MovieLine (e : Entry)
    (* f'\n{movie} ({year}): {rating}' *)
| NotFoundLine (search_request : string)
    (* f"\nCouldn't found movies with '{search_request}'" *)
| TonightLine (movie : string) (r : Q)
    (* f'Your movie for tonight: {random_movie} with a rating of {...}' *)
| UnexpectedLine (e : Exc).
    (* f'Unexpected error: {str(e)}' *)

(** The [except] clauses shared by the query functions of [movies.py];
    [on_value_error] is the message of the [except ValueError] clause,
    which differs between functions.  That clause comes first, and
    [json.JSONDecodeError] is a [ValueError], so it is caught there. *)
Definition handle (on_value_error : string) (e : Exc) : list Line :=
  match e with
  | ValueError | JSONDecodeError => [Text on_value_error]
  | FileNotFoundError => [Text FILE_NOT_FOUND]
  | PermissionError => [Text NO_PERMISSION]
  | _ => [UnexpectedLine e]
  end.

(** ** The manual sorts *)

(** [lst.remove(x)]: drops the first item equal to [x]; [ValueError] when
    there is none. *)
Fixpoint list_remove (x : Entry) (lst : list Entry) : Res (list Entry) :=
  match lst with
  | [] => Raise ValueError
  | item :: rest =>
      if Entry_eqb item x then Return rest
      else (rest' <- list_remove x rest ;; Return (item :: rest'))
  end.

Section ManualSort.
(** [sort_movies_by_rating] and [sort_movies_by_year] run the same loop,
    on [movie[2]] against [0.0] and on [movie[1]] against [0]. *)
Variable K : Type.
Variable key : Entry -> K.
Variable gtb : K -> K -> bool.
Variable zero : K.

(** The inner [for movie in rating_lst] loop, from the current
    [best_rating] and [best_movie]. *)
Fixpoint scan (lst : list Entry) (best_key : K) (best_movie : option Entry)
  : option Entry :=
  match lst with
  | [] => best_movie
  | movie :: rest =>
      if gtb (key movie) best_key
      then scan rest (key movie) (Some movie)
      else scan rest best_key best_movie
  end.

(** The outer [while rating_lst] loop. *)
Fixpoint selection_loop (fuel : nat) (rating_lst sorted_lst : list Entry)
  : option (Res (list Entry)) :=
  match rating_lst with
  | [] => Some (Return sorted_lst)
  | _ :: _ =>
      match fuel with
      | O => None
      | S fuel' =>
          match scan rating_lst zero None with
          | Some best_movie =>
              match list_remove best_movie rating_lst with
              | Return rest =>
                  selection_loop fuel' rest (sorted_lst ++ [best_movie])
              | Raise e => Some (Raise e)
              end
          | None => selection_loop fuel' rating_lst sorted_lst
          end
      end
  end.

(** Two keys are tied when neither is greater. *)
Definition tied (k : K) (e : Entry) : bool :=
  negb (gtb (key e) k) && negb (gtb k (key e)).

(** [c] comes no earlier than [a] in a descending list. *)
Definition desc (a c : Entry) : Prop := gtb (key c) (key a) = false.
End ManualSort.

(** [sort_movies_by_rating()], on the dict [movies] that [ms.get_movies()]
    returned. *)
Definition sort_movies_by_rating (fuel : nat) (movies : Movies)
  : option (list Line) :=
  match movies with
  | [] => Some [Text EMPTY_DB]
  | _ :: _ =>
      match selection_loop Q e_rating Qgtb 0%Q fuel (entries movies) [] with
      | None => None
      | Some (Return sorted_lst) => Some (map MovieLine sorted_lst)
      | Some (Raise e) => Some (handle EMPTY_DB e)
      end
  end.

(** The [while True] loop of [sort_movies_by_year] that reads the choice;
    [inputs] are the lines the user types, [input()] raises [EOFError]
    when there is none left. *)
Fixpoint choose_direction (inputs : list string) (sorted_lst : list Entry)
  : Res (list Line) :=
  match inputs with
  | [] => Raise EOFError
  | user_input :: later =>
      if String.eqb user_input "b" then Return []
      else if String.eqb user_input "old"
           then Return (map MovieLine (rev sorted_lst))
      else if String.eqb user_input "young"
           then Return (map MovieLine sorted_lst)
      else choose_direction later sorted_lst
  end.

(** [sort_movies_by_year()]. *)
Definition sort_movies_by_year (fuel : nat) (inputs : list string)
  (movies : Movies) : option (list Line) :=
  match movies with
  | [] => Some [Text EMPTY_DB]
  | _ :: _ =>
      match selection_loop Z e_year Zgtb 0%Z fuel (entries movies) [] with
      | None => None
      | Some (Return sorted_lst) =>
          match choose_direction inputs sorted_lst with
          | Return result_lst => Some result_lst
          | Raise e => Some (handle EMPTY_DB e)
          end
      | Some (Raise e) => Some (handle EMPTY_DB e)
      end
  end.

(** ** Statistics *)

(** [sorted(lst)] on ratings: a stable ascending sort that, like Python's,
    only asks [<]. *)
Definition Qltb (a b : Q) : bool := negb (Qle_bool b a).

Fixpoint insert_sorted (x : Q) (lst : list Q) : list Q :=
  match lst with
  | [] => [x]
  | y :: rest => if Qltb y x then y :: insert_sorted x rest else x :: y :: rest
  end.

Definition sorted (lst : list Q) : list Q := fold_right insert_sorted [] lst.

(** [lst[i]] for an index [i >= 0]. *)
Definition list_index {A : Type} (lst : list A) (i : nat) : Res A :=
  match nth_error lst i with
  | Some a => Return a
  | None => Raise IndexError
  end.

(** [max(iterable)] and [min(iterable)]: the first item is the candidate,
    a later item replaces it when it is strictly greater (smaller);
    [ValueError] on an empty iterable. *)
Definition py_max (lst : list Q) : Res Q :=
  match lst with
  | [] => Raise ValueError
  | x :: rest => Return (fold_left (fun m y => if Qgtb y m then y else m) rest x)
  end.

Definition py_min (lst : list Q) : Res Q :=
  match lst with
  | [] => Raise ValueError
  | x :: rest => Return (fold_left (fun m y => if Qltb y m then y else m) rest x)
  end.

(** [round(x, 1)] on a rational: to the nearest tenth, a half to the even
    tenth.  (The float result of the division is idealised as a rational;
    no statement below depends on the rounding.) *)
Definition round1 (x : Q) : Q :=
  let n := Qfloor (x * 10) in
  let frac := (x * 10 - inject_Z n)%Q in
  match (frac ?= 1 # 2)%Q with
  | Lt => inject_Z n / 10
  | Gt => inject_Z (n + 1) / 10
  | Eq => if Z.even n then inject_Z n / 10 else inject_Z (n + 1) / 10
  end%Q.

Inductive StatLine : Type :=
| AverageLine (r : Q)            (* f'Average rating: {round(average_rating, 1)}' *)
| MedianLine (r : Q)             (* f'Median rating: {...}' *)
| BestLine (best : list Entry)   (* 'Best movie: ' + ', '.join(f'{movie} ({year}), {rating}') *)
| WorstLine (worst : list Entry).

Definition ratings (movies : Movies) : list Q := map (fun m => rating (snd m)) movies.

(** [calc_rating_average()] *)
Definition calc_rating_average (movies : Movies) : Res StatLine :=
  let sum_ratings := fold_left (fun s m => (s + rating (snd m))%Q) movies 0%Q in
  match movies with
  | [] => Raise ZeroDivisionError
  | _ :: _ =>
      let average_rating := (sum_ratings / inject_Z (Z.of_nat (List.length movies)))%Q in
      Return (AverageLine (round1 average_rating))
  end.

(** [calc_rating_median()] *)
Definition calc_rating_median (movies : Movies) : Res StatLine :=
  let rating_lst := ratings movies in
  let sorted_rating_lst := sorted rating_lst in
  let media_index := Nat.div (List.length sorted_rating_lst) 2 in
  r <- list_index sorted_rating_lst media_index ;;
  Return (MedianLine r).

(** [return_best_movie()] *)
Definition return_best_movie (movies : Movies) : Res StatLine :=
  best_movie_rating <- py_max (ratings movies) ;;
  Return (BestLine (filter (fun e => Qeq_bool (e_rating e) best_movie_rating)
                           (entries movies))).

(** [return_worst_movie()] *)
Definition return_worst_movie (movies : Movies) : Res StatLine :=
  worst_movie_rating <- py_min (ratings movies) ;;
  Return (WorstLine (filter (fun e => Qeq_bool (e_rating e) worst_movie_rating)
                            (entries movies))).

(** What [calc_stats_for_all_movies] returns: the tuple of four strings,
    or the one-message list of an [except] clause. *)
Inductive StatsResult : Type :=
| StatsTuple (average median best_movie worst_movie : StatLine)
| StatsMessage (msg : list Line).

Definition handle_stats (e : Exc) : list Line :=
  match e with
  | ZeroDivisionError => [Text EMPTY_DB]
  | FileNotFoundError => [Text FILE_NOT_FOUND]
  | JSONDecodeError => [Text FILE_CORRUPTED]
  | PermissionError => [Text NO_PERMISSION]
  | _ => [UnexpectedLine e]
  end.

(** The body of the [try] of [calc_stats_for_all_movies]. *)
Definition calc_stats_body (movies : Movies)
  : Res (StatLine * StatLine * StatLine * StatLine) :=
  average <- calc_rating_average movies ;;
  median <- calc_rating_median movies ;;
  best_movie <- return_best_movie movies ;;
  worst_movie <- return_worst_movie movies ;;
  Return (average, median, best_movie, worst_movie).

(** [calc_stats_for_all_movies()] *)
Definition calc_stats_for_all_movies (movies : Movies) : StatsResult :=
  match calc_stats_body movies with
  | Return (average, median, best_movie, worst_movie) =>
      StatsTuple average median best_movie worst_movie
  | Raise e => StatsMessage (handle_stats e)
  end.

(** ** Random pick *)

(** [rand.randrange(n)]: [draw] is the number the generator produces;
    [ValueError] on an empty range. *)
Definition randrange (draw : nat) (n : nat) : Res nat :=
  match n with
  | O => Raise ValueError
  | S _ => Return (Nat.modulo draw n)
  end.

(** [movies[key]]; [KeyError] on a missing key. *)
Fixpoint dict_get (movies : Movies) (k : string) : Res Info :=
  match movies with
  | [] => Raise (KeyError k)
  | (k', v) :: rest => if String.eqb k' k then Return v else dict_get rest k
  end.

(** [return_random_movie()] *)
Definition return_random_movie (draw : nat) (movies : Movies) : list Line :=
  match movies with
  | [] => [Text EMPTY_DB]
  | _ :: _ =>
      let movies_lst := map fst movies in
      let movies_lst_len := List.length movies_lst in
      match (i <- randrange draw movies_lst_len ;;
             random_movie <- list_index movies_lst i ;;
             infos <- dict_get movies random_movie ;;
             Return [TonightLine random_movie (rating infos)]) with
      | Return out => out
      | Raise e => handle EMPTY_DB_BOLD e
      end
  end.

(** ** Search *)

Definition lower_ascii (c : ascii) : ascii :=
  let n := nat_of_ascii c in
  if (Nat.leb 65 n && Nat.leb n 90)%bool then ascii_of_nat (n + 32) else c.

(** [s.lower()], on ASCII text. *)
Fixpoint lower (s : string) : string :=
  match s with
  | EmptyString => EmptyString
  | String c rest => String (lower_ascii c) (lower rest)
  end.

(** [needle in hay] on strings. *)
Fixpoint contains (needle hay : string) : bool :=
  (prefix needle hay
   || match hay with
      | EmptyString => false
      | String _ rest => contains needle rest
      end)%bool.

(** The [for] loop of [search_for_movie_in_dict] that fills
    [search_result]. *)
Definition search_matches (search_request_lower : string) (movies : Movies)
  : list (string * Info) :=
  filter (fun m => contains search_request_lower (lower (fst m))) movies.

(** [search_for_movie_in_dict()], on the string the user typed. *)
Definition search_for_movie_in_dict (search_request : string) (movies : Movies)
  : list Line :=
  let search_request_lower := lower search_request in
  let search_result :=
    map (fun m => MovieLine (entry_of m)) (search_matches search_request_lower movies) in
  match search_result with
  | [] => [NotFoundLine search_request]
  | _ :: _ => search_result
  end.

(** ** The store ([movies_storage_sql.py]) *)

(** A row of the table [movies (id, title, year, rating, poster)]. *)
Record Row : Type := mkRow {
  row_id : Z;
  row_title : string;
  row_year : Z;
  row_rating : Q;
  row_poster : string
}.

(** The database file: the rows in storage order, and the last id that
    AUTOINCREMENT handed out. *)
Record DB : Type := mkDB { rows : list Row; last_id : Z }.

(** [d[k] = v] on a dict: a present key keeps its place and takes the new
    value, a new key goes last. *)
Fixpoint dict_set (k : string) (v : Info) (d : Movies) : Movies :=
  match d with
  | [] => [(k, v)]
  | (k', v') :: rest =>
      if String.eqb k' k then (k', v) :: rest else (k', v') :: dict_set k v rest
  end.

(** [k in d] on a dict. *)
Definition dict_mem (k : string) (d : Movies) : bool :=
  existsb (fun m => String.eqb (fst m) k) d.

(** [get_movies()]:
    [{row[0]: {"year": row[1], "rating": row[2]} for row in movies}] *)
Definition get_movies (db : DB) : Movies :=
  fold_left (fun d row => dict_set (row_title row) (mkInfo (row_year row) (row_rating row)) d)
            (rows db) [].

(** [get_generation_data()]: the tuples (title, year, rating, poster). *)
Definition get_generation_data (db : DB) : list (string * Z * Q * string) :=
  map (fun r => (row_title r, row_year r, row_rating r, row_poster r)) (rows db).

Definition has_title (title : string) (db : DB) : bool :=
  existsb (fun r => String.eqb (row_title r) title) (rows db).

Definition UNIQUE_FAILED : string := "UNIQUE constraint failed: movies.title".

(** [INSERT INTO movies (title, year, rating, poster) VALUES (...)] and the
    commit.  [inl detail] is the exception the statement raised, with its
    [str(e)]: the UNIQUE constraint on [title], or a failure [fault] of the
    storage itself (locked file, full disk), after which the file is as
    before. *)
Definition sql_insert (fault : option string) (title : string) (y : Z) (r : Q)
  (poster : string) (db : DB) : string + DB :=
  match fault with
  | Some detail => inl detail
  | None =>
      if has_title title db then inl UNIQUE_FAILED
      else inr (mkDB (rows db ++ [mkRow (last_id db + 1) title y r poster])
                     (last_id db + 1))
  end.

(** [DELETE FROM movies WHERE title = :title] *)
Definition sql_delete (title : string) (db : DB) : DB :=
  mkDB (filter (fun r => negb (String.eqb (row_title r) title)) (rows db))
       (last_id db).

(** [UPDATE movies SET rating = :rating WHERE title = :title] *)
Definition sql_update (title : string) (new_rating : Q) (db : DB) : DB :=
  mkDB (map (fun r => if String.eqb (row_title r) title
                      then mkRow (row_id r) (row_title r) (row_year r) new_rating
                                 (row_poster r)
                      else r) (rows db))
       (last_id db).

(** The JSON body of an OMDb answer, as [add_movie] reads it:
    [{"Response": "False", ...}], or a movie with its ["Title"], ["Year"],
    ["imdbRating"] and ["Poster"] (year and rating as the typed columns
    store them). *)
Inductive Omdb : Type :=
| OmdbFalse
| OmdbMovie (Title : string) (Year : Z) (imdbRating : Q) (Poster : string).

(** What [requests.get(url)] does: it raises (no route, refused, timed
    out), or returns a response with a status code and a body that
    [res.json()] parses or not. *)
Inductive Http : Type :=
| GetRaises (detail : string)
| Response (status_code : Z) (body : option Omdb).

(** The dict [add_movie] returns, by its ["reason"]. *)
Inductive AddResult : Type :=
| Added (title : string) (y : Z) (r : Q) (poser_image_url : string)
| NotFound (title : string)
| Duplicate (title : string)
| ApiConnection (title : string)
| DatabaseError (error : string).

(** [add_movie(title)]; [omdb] is the provider's answer to a query,
    [fault] the failure of the storage during the INSERT, if any.  The
    result is what the call returns or raises, and the database after it. *)
Definition add_movie (omdb : string -> Http) (fault : option string)
  (title : string) (db : DB) : Res AddResult * DB :=
  match omdb title with
  | GetRaises detail => (Raise (ConnectionError detail), db)
  | Response status_code body =>
      match body with
      | None => (Raise JSONDecodeError, db)
      | Some parsed =>
          if negb (Z.eqb status_code 200) then (Return (ApiConnection title), db)
          else
            match parsed with
            | OmdbFalse => (Return (NotFound title), db)
            | OmdbMovie Title Year imdbRating Poster =>
                let existing_movies := get_movies db in
                if dict_mem Title existing_movies
                then (Return (Duplicate Title), db)
                else
                  match sql_insert fault Title Year imdbRating Poster db with
                  | inr db' => (Return (Added Title Year imdbRating Poster), db')
                  | inl e => (Return (DatabaseError e), db)
                  end
            end
      end
  end.

(** [delete_movie(title)]: [True] after the statement and the commit,
    [False] from the [except] clause. *)
Definition delete_movie (fault : option string) (title : string) (db : DB)
  : bool * DB :=
  match fault with
  | None => (true, sql_delete title db)
  | Some _ => (false, db)
  end.

(** [update_movie(title, rating)] *)
Definition update_movie (fault : option string) (title : string) (new_rating : Q)
  (db : DB) : bool * DB :=
  match fault with
  | None => (true, sql_update title new_rating db)
  | Some _ => (false, db)
  end.

(** ** The query contracts of the specification, as predicates *)

(** Every adjacent pair of [out] is in the relation [R]. *)
Definition adjacent_pairs {A : Type} (R : A -> A -> Prop) (out : list A) : Prop :=
  forall i a b, nth_error out i = Some a -> nth_error out (S i) = Some b -> R a b.

(** The entries of a given rating (of a given year), in list order. *)
Definition of_rating (r : Q) (l : list Entry) : list Entry :=
  filter (fun e => Qeq_bool (e_rating e) r) l.

Definition of_year (y : Z) (l : list Entry) : list Entry :=
  filter (fun e => Z.eqb (e_year e) y) l.

(** sortByRatingDescending on [movies], when the loop is given [fuel]
    rounds: the call returns the lines of a permutation of the snapshot,
    of equal length, descending by rating, equal ratings in snapshot
    order. *)
Definition sorted_by_rating_at (fuel : nat) (movies : Movies) : Prop :=
  exists out,
    sort_movies_by_rating fuel movies = Some (map MovieLine out)
    /\ Permutation (entries movies) out
    /\ List.length out = List.length movies
    /\ adjacent_pairs (fun a b => (e_rating b <= e_rating a)%Q) out
    /\ forall r, of_rating r out = of_rating r (entries movies).

(** The two directions of sortByYear and what the user types for them. *)
Inductive Direction : Type := Ascending | Descending.

Definition direction_input (d : Direction) : string :=
  match d with
  | Ascending => "old"
  | Descending => "young"
  end.

Definition in_direction (d : Direction) (a b : Entry) : Prop :=
  match d with
  | Ascending => e_year a <= e_year b
  | Descending => e_year b <= e_year a
  end.

(** sortByYear as specified: sorted in the direction, equal years in
    snapshot order. *)
Definition sorted_by_year_at (fuel : nat) (d : Direction) (movies : Movies) : Prop :=
  exists out,
    sort_movies_by_year fuel [direction_input d] movies = Some (map MovieLine out)
    /\ Permutation (entries movies) out
    /\ adjacent_pairs (in_direction d) out
    /\ forall y, of_year y out = of_year y (entries movies).

(** The order among equal years that the code produces: snapshot order
    when descending, the reverse of it when ascending. *)
Definition tie_order (d : Direction) (l : list Entry) : list Entry :=
  match d with
  | Ascending => rev l
  | Descending => l
  end.

(** The catalog of the specification's scenario. *)
Definition scenario : Movies :=
  [("A", mkInfo 2000 5); ("B", mkInfo 2010 9); ("C", mkInfo 2010 9)].

(** [title] contains [substring] when case is ignored: the lowered
    substring occurs somewhere in the lowered title. *)
Definition contains_ci (substring title : string) : Prop :=
  exists pre post, lower title = (pre ++ lower substring ++ post)%string.

(** The lines of the entries [found], in their order. *)
Definition movie_lines (found : Movies) : list Line :=
  map (fun m => MovieLine (entry_of m)) found.

Definition three_titles : Movies :=
  [("Matrix", mkInfo 1999 (87 # 10)); ("Up", mkInfo 2009 (83 # 10));
   ("Batman", mkInfo 1989 (75 # 10))].

(** A database that holds the one record of the specification's round
    trip. *)
Definition one_movie : DB := mkDB [mkRow 1 "Matrix" 1999 (87 # 10) "url"] 1.

(** The row [r] with its rating replaced. *)
Definition with_rating (new_rating : Q) (r : Row) : Row :=
  mkRow (row_id r) (row_title r) (row_year r) new_rating (row_poster r).

(** ** The menu functions of [movies.py] that read and write the store *)

(** The strings these functions return.  [FixedNotice] holds a message
    without fields; the others stand for the f-strings named beside them. *)
Inductive Notice : Type :=
| FixedNotice (s : string)
| ListedNotice (title : string) (y : Z) (r : Q)
    (* f'{title} ({infos['year']}): {infos['rating']}' *)
| AddedNotice (title : string) (y : Z) (r : Q)
    (* f'\nMovie ... ({year}) added successfully with rating {rating}.' *)
| NotFoundNotice (title : string)
    (* f'\nError: Movie ... not found in database.' *)
| DuplicateNotice (title : string)
    (* f'\nError: Movie ... already exists in database.' *)
| DatabaseErrorNotice (error : string)
    (* f'\nDatabase error: {result[error]}' *)
| ApiConnectionNotice
    (* f'\nError: OMDb-API connection problem.' *)
| DeletedNotice (title : string)
    (* f'\nMovie ... deleted successfully.' *)
| UpdatedNotice (title : string)
    (* f'\nMovie ... updated successfully.' *)
| MovieDontExist
    (* the message of the last [else] branch of the delete and update menus *)
| UnexpectedNotice (e : Exc).
    (* f'Unexpected error: {str(e)}' *)

(** [list_up_movies()] *)
Definition list_up_movies (db : DB) : list Notice :=
  let movies := get_movies db in
  let movies_lst :=
    map (fun m => ListedNotice (fst m) (year (snd m)) (rating (snd m))) movies in
  match movies_lst with
  | [] => [FixedNotice EMPTY_DB]
  | _ :: _ => movies_lst
  end.

(** The message [add_movie_to_dict] makes of the dict [result]. *)
Definition add_notice (result : AddResult) : Notice :=
  match result with
  | Added title y r _ => AddedNotice title y r
  | NotFound title => NotFoundNotice title
  | Duplicate title => DuplicateNotice title
  | DatabaseError error => DatabaseErrorNotice error
  | ApiConnection _ => ApiConnectionNotice
  end.

(** [add_movie_to_dict()]; [inputs] are the lines the user types.  The
    function returns on its first round: [None] is the [None] that Python
    returns after the [break] on the input b. *)
Definition add_movie_to_dict (inputs : list string) (omdb : string -> Http)
  (fault : option string) (db : DB) : option (list Notice) * DB :=
  match inputs with
  | [] => (Some [UnexpectedNotice EOFError], db)
  | title :: _ =>
      if String.eqb title "b" then (None, db)
      else
        match add_movie omdb fault title db with
        | (Return result, db') => (Some [add_notice result], db')
        | (Raise e, db') => (Some [UnexpectedNotice e], db')
        end
  end.

(** [remove_movie_from_dict()] *)
Definition remove_movie_from_dict (inputs : list string) (fault : option string)
  (db : DB) : option (list Notice) * DB :=
  let movies := get_movies db in
  match inputs with
  | [] => (Some [UnexpectedNotice EOFError], db)
  | title :: _ =>
      if String.eqb title "b" then (None, db)
      else if dict_mem title movies
      then (Some [DeletedNotice title], snd (delete_movie fault title db))
      else
        match movies with
        | [] => (Some [FixedNotice EMPTY_DB], db)
        | _ :: _ => (Some [MovieDontExist], db)
        end
  end.

(** The [except] clauses of [update_movie_from_dict]. *)
Definition handle_update (e : Exc) : list Notice :=
  match e with
  | FileNotFoundError => [FixedNotice FILE_NOT_FOUND]
  | JSONDecodeError => [FixedNotice FILE_CORRUPTED]
  | PermissionError => [FixedNotice NO_PERMISSION]
  | _ => [UnexpectedNotice e]
  end.

(** [update_movie_from_dict()]: the rating is read from the snapshot,
    [movies[title]['rating']], before the test [title in movies]. *)
Definition update_movie_from_dict (inputs : list string) (fault : option string)
  (db : DB) : option (list Notice) * DB :=
  let movies := get_movies db in
  match inputs with
  | [] => (Some (handle_update EOFError), db)
  | title :: _ =>
      if String.eqb title "b" then (None, db)
      else
        match dict_get movies title with
        | Raise e => (Some (handle_update e), db)
        | Return infos =>
            let rating := rating infos in
            if dict_mem title movies
            then (Some [UpdatedNotice title], snd (update_movie fault title rating db))
            else
              match movies with
              | [] => (Some [FixedNotice EMPTY_DB], db)
              | _ :: _ => (Some [MovieDontExist], db)
              end
        end
  end.

(** ** Vocabulary of the further properties *)

(** The UNIQUE constraint on [title], as a property of the table. *)
Definition unique_titles (db : DB) : Prop := NoDup (map row_title (rows db)).

(** The snapshot entry of a row. *)
Definition info_of (r : Row) : string * Info :=
  (row_title r, mkInfo (row_year r) (row_rating r)).

(** The keys of a dict, in iteration order. *)
Definition keys (d : Movies) : list string := map fst d.

(** The choices that [sort_movies_by_year] accepts. *)
Definition is_choice (user_input : string) : bool :=
  (String.eqb user_input "b" || String.eqb user_input "old"
   || String.eqb user_input "young")%bool.

(** A provider that knows one film under two spellings. *)
Definition matrix_provider (title : string) : Http :=
  if (String.eqb title "matrix" || String.eqb title "The Matrix")%bool
  then Response 200 (Some (OmdbMovie "The Matrix" 1999 (87 # 10) "url"))
  else Response 200 (Some OmdbFalse).

Definition empty_db : DB := mkDB [] 0.

(** ** The sorts on snapshots whose cells need not be numbers *)

(** A value of the [year] or [rating] column as the driver returns it.
    SQLite converts what is stored to the type of the column when it can;
    text that does not convert (a rating that is not a number, the year
    range of a series) is stored and returned as text.  [Info] above is
    the case in which both cells are numbers; Python compares an [int] and
    a [float] by value, so one kind of number is enough here. *)
Inductive Cell : Type :=
| Num (q : Q)
| Txt (s : string).

Record RawInfo : Type := mkRawInfo { raw_year : Cell; raw_rating : Cell }.

Definition RawMovies : Type := list (string * RawInfo).

Record RawEntry : Type :=
  mkRawEntry { r_title : string; r_year : Cell; r_rating : Cell }.

Definition raw_entry_of (m : string * RawInfo) : RawEntry :=
  mkRawEntry (fst m) (raw_year (snd m)) (raw_rating (snd m)).

Definition raw_entries (movies : RawMovies) : list RawEntry :=
  map raw_entry_of movies.

(** The [TypeError] that an ordering comparison of a [str] with a number
    raises. *)
Definition TYPE_ERROR : Exc := OtherError "TypeError".

(** Python's [a > b]: numbers by value, strings in lexicographic order, a
    string against a number not at all. *)
Definition cell_gt (a b : Cell) : Res bool :=
  match a, b with
  | Num x, Num y => Return (Qgtb x y)
  | Txt s, Txt t => Return (String.ltb t s)
  | _, _ => Raise TYPE_ERROR
  end.

(** Python's [a == b]: a string and a number are never equal. *)
Definition cell_eqb (a b : Cell) : bool :=
  match a, b with
  | Num x, Num y => Qeq_bool x y
  | Txt s, Txt t => String.eqb s t
  | _, _ => false
  end.

Definition RawEntry_eqb (a b : RawEntry) : bool :=
  String.eqb (r_title a) (r_title b)
  && cell_eqb (r_year a) (r_year b)
  && cell_eqb (r_rating a) (r_rating b).

Definition is_text (c : Cell) : bool :=
  match c with
  | Num _ => false
  | Txt _ => true
  end.

(** [lst.remove(x)] *)
Fixpoint list_remove_raw (x : RawEntry) (lst : list RawEntry) : Res (list RawEntry) :=
  match lst with
  | [] => Raise ValueError
  | item :: rest =>
      if RawEntry_eqb item x then Return rest
      else (rest' <- list_remove_raw x rest ;; Return (item :: rest'))
  end.

Section RawManualSort.
(** The column the loop sorts on: [movie[2]] or [movie[1]]. *)
Variable rkey : RawEntry -> Cell.

(** The inner [for] loop; the comparison may raise. *)
Fixpoint scan_raw (lst : list RawEntry) (best_key : Cell)
  (best_movie : option RawEntry) : Res (option RawEntry) :=
  match lst with
  | [] => Return best_movie
  | movie :: rest =>
      greater <- cell_gt (rkey movie) best_key ;;
      if greater : bool
      then scan_raw rest (rkey movie) (Some movie)
      else scan_raw rest best_key best_movie
  end.

(** The outer [while] loop, from [best = 0] in each round. *)
Fixpoint selection_loop_raw (fuel : nat) (rating_lst sorted_lst : list RawEntry)
  : option (Res (list RawEntry)) :=
  match rating_lst with
  | [] => Some (Return sorted_lst)
  | _ :: _ =>
      match fuel with
      | O => None
      | S fuel' =>
          match scan_raw rating_lst (Num 0) None with
          | Raise e => Some (Raise e)
          | Return (Some best_movie) =>
              match list_remove_raw best_movie rating_lst with
              | Return rest =>
                  selection_loop_raw fuel' rest (sorted_lst ++ [best_movie])
              | Raise e => Some (Raise e)
              end
          | Return None => selection_loop_raw fuel' rating_lst sorted_lst
          end
      end
  end.
End RawManualSort.

(** A returned string: a line of a movie with its cells, or one of the
    strings of [Line]. *)
Inductive RawLine : Type :=
| Plain (l : Line)
| RawMovieLine (e : RawEntry).

(** [sort_movies_by_rating()] on such a snapshot. *)
Definition sort_movies_by_rating_raw (fuel : nat) (movies : RawMovies)
  : option (list RawLine) :=
  match movies with
  | [] => Some [Plain (Text EMPTY_DB)]
  | _ :: _ =>
      match selection_loop_raw r_rating fuel (raw_entries movies) [] with
      | None => None
      | Some (Return sorted_lst) => Some (map RawMovieLine sorted_lst)
      | Some (Raise e) => Some (map Plain (handle EMPTY_DB e))
      end
  end.

Fixpoint choose_direction_raw (inputs : list string) (sorted_lst : list RawEntry)
  : Res (list RawLine) :=
  match inputs with
  | [] => Raise EOFError
  | user_input :: later =>
      if String.eqb user_input "b" then Return []
      else if String.eqb user_input "old"
           then Return (map RawMovieLine (rev sorted_lst))
      else if String.eqb user_input "young"
           then Return (map RawMovieLine sorted_lst)
      else choose_direction_raw later sorted_lst
  end.

(** [sort_movies_by_year()] on such a snapshot. *)
Definition sort_movies_by_year_raw (fuel : nat) (inputs : list string)
  (movies : RawMovies) : option (list RawLine) :=
  match movies with
  | [] => Some [Plain (Text EMPTY_DB)]
  | _ :: _ =>
      match selection_loop_raw r_year fuel (raw_entries movies) [] with
      | None => None
      | Some (Return sorted_lst) =>
          match choose_direction_raw inputs sorted_lst with
          | Return result_lst => Some result_lst
          | Raise e => Some (map Plain (handle EMPTY_DB e))
          end
      | Some (Raise e) => Some (map Plain (handle EMPTY_DB e))
      end
  end.

(** A snapshot of numbers, an entry and a line of it, among the general
    ones. *)
Definition raw_info (i : Info) : RawInfo :=
  mkRawInfo (Num (inject_Z (year i))) (Num (rating i)).

Definition raw_movies (movies : Movies) : RawMovies :=
  map (fun m => (fst m, raw_info (snd m))) movies.

Definition raw_entry (e : Entry) : RawEntry :=
  mkRawEntry (e_title e) (Num (inject_Z (e_year e))) (Num (e_rating e)).

Definition raw_line (l : Line) : RawLine :=
  match l with
  | MovieLine e => RawMovieLine (raw_entry e)
  | _ => Plain l
  end.

Definition raw_result (r : Res (list Entry)) : Res (list RawEntry) :=
  match r with
  | Return l => Return (map raw_entry l)
  | Raise e => Raise e
  end.

(** A catalog with a film whose rating the provider does not know and a
    series whose year is a range. *)
Definition unrated_and_series : RawMovies :=
  [("Matrix", mkRawInfo (Num 1999) (Num (87 # 10)));
   ("Obscure", mkRawInfo (Num 2001) (Txt "N/A"));
   ("Series", mkRawInfo (Txt "2011-2019") (Num 9))].

(** * Properties *)

Local Open Scope list_scope.

(** ** Comparisons *)

Lemma Qgtb_true (a b : Q) : Qgtb a b = true <-> (b < a)%Q.
Proof.
  unfold Qgtb. rewrite negb_true_iff, <- not_true_iff_false, Qle_bool_iff.
  split; [apply Qnot_le_lt | apply Qlt_not_le].
Qed.

Lemma Qgtb_false (a b : Q) : Qgtb a b = false <-> (a <= b)%Q.
Proof.
  unfold Qgtb. rewrite negb_false_iff. apply Qle_bool_iff.
Qed.

Lemma Qltb_true (a b : Q) : Qltb a b = true <-> (a < b)%Q.
Proof. apply (Qgtb_true b a). Qed.

Lemma Qltb_false (a b : Q) : Qltb a b = false <-> (b <= a)%Q.
Proof. apply (Qgtb_false b a). Qed.

Lemma Zgtb_true (a b : Z) : Zgtb a b = true <-> b < a.
Proof. apply Z.ltb_lt. Qed.

Lemma Zgtb_false (a b : Z) : Zgtb a b = false <-> a <= b.
Proof. unfold Zgtb. rewrite Z.ltb_ge. reflexivity. Qed.

Lemma Qeq_bool_true_refl (a : Q) : Qeq_bool a a = true.
Proof. apply Qeq_bool_iff. reflexivity. Qed.

Lemma Entry_eqb_refl (e : Entry) : Entry_eqb e e = true.
Proof.
  unfold Entry_eqb.
  now rewrite String.eqb_refl, Z.eqb_refl, Qeq_bool_true_refl.
Qed.

Lemma Entry_eqb_fields (a b : Entry) :
  Entry_eqb a b = true ->
  e_title a = e_title b /\ e_year a = e_year b /\ (e_rating a == e_rating b)%Q.
Proof.
  unfold Entry_eqb. rewrite !andb_true_iff.
  intros [[Ht Hy] Hr]. repeat split.
  - now apply String.eqb_eq.
  - now apply Z.eqb_eq.
  - now apply Qeq_bool_iff.
Qed.

(** ** The selection loop, for any strict weak order on the keys *)

Section SelectionFacts.
Variable K : Type.
Variable key : Entry -> K.
Variable gtb : K -> K -> bool.
Variable zero : K.

Hypothesis gtb_trans :
  forall a b c, gtb a b = true -> gtb b c = true -> gtb a c = true.
Hypothesis ngt_trans :
  forall a b c, gtb a b = false -> gtb b c = false -> gtb a c = false.
Hypothesis gtb_asym : forall a b, gtb a b = true -> gtb b a = false.
Hypothesis eqb_key :
  forall x y, Entry_eqb x y = true -> gtb (key y) (key x) = false.

Lemma gtb_ngt_gtb a b c : gtb a b = true -> gtb c b = false -> gtb a c = true.
Proof.
  intros Hab Hcb. destruct (gtb a c) eqn:Hac; [reflexivity|].
  rewrite (ngt_trans _ _ _ Hac Hcb) in Hab. discriminate.
Qed.

(** What the inner loop finds: nothing new when no key exceeds the
    running best, else the first entry of greatest key. *)
Lemma scan_first_greatest lst : forall best_key best_movie,
  (Forall (fun e => gtb (key e) best_key = false) lst
   /\ scan K key gtb lst best_key best_movie = best_movie)
  \/ exists l1 b l2,
       lst = l1 ++ b :: l2
       /\ scan K key gtb lst best_key best_movie = Some b
       /\ gtb (key b) best_key = true
       /\ Forall (fun e => gtb (key b) (key e) = true) l1
       /\ Forall (fun e => gtb (key e) (key b) = false) l2.
Proof.
  induction lst as [|m rest IH]; intros best_key best_movie; simpl.
  - left. split; [constructor | reflexivity].
  - destruct (gtb (key m) best_key) eqn:Hm.
    + right. destruct (IH (key m) (Some m)) as [[Hall Hs] | (l1 & b & l2 & -> & Hs & Hb & H1 & H2)].
      * exists [], m, rest. repeat split; auto.
      * exists (m :: l1), b, l2. repeat split; auto.
        apply (gtb_trans _ _ _ Hb Hm).
    + destruct (IH best_key best_movie) as [[Hall Hs] | (l1 & b & l2 & -> & Hs & Hb & H1 & H2)].
      * left. split; [constructor; assumption | assumption].
      * right. exists (m :: l1), b, l2. repeat split; auto.
        constructor; [|assumption]. apply (gtb_ngt_gtb _ _ _ Hb Hm).
Qed.

Lemma list_remove_middle l1 b l2 :
  Forall (fun e => gtb (key b) (key e) = true) l1 ->
  list_remove b (l1 ++ b :: l2) = Return (l1 ++ l2).
Proof.
  induction 1 as [|x l1 Hx _ IH]; simpl.
  - now rewrite Entry_eqb_refl.
  - destruct (Entry_eqb x b) eqn:E.
    + apply eqb_key in E. congruence.
    + now rewrite IH.
Qed.

Lemma filter_tied_before k l1 b :
  Forall (fun e => gtb (key b) (key e) = true) l1 ->
  tied K key gtb k b = true ->
  filter (tied K key gtb k) l1 = [].
Proof.
  unfold tied. rewrite andb_true_iff, !negb_true_iff. intros Hall [Hbk Hkb].
  induction Hall as [|x l1 Hx _ IH]; simpl; [reflexivity|].
  rewrite IH.
  destruct (gtb k (key x)) eqn:Hkx; [now rewrite andb_false_r|].
  rewrite (ngt_trans _ _ _ Hbk Hkx) in Hx. discriminate.
Qed.

(** The outer loop on a list whose keys all exceed [zero]: with one unit
    of fuel per entry it returns, and what it appends to [sorted_lst] is
    the stable descending arrangement of the list. *)
Lemma selection_loop_sorts fuel : forall rating_lst sorted_lst,
  Forall (fun e => gtb (key e) zero = true) rating_lst ->
  (List.length rating_lst <= fuel)%nat ->
  exists out,
    selection_loop K key gtb zero fuel rating_lst sorted_lst
      = Some (Return (sorted_lst ++ out))
    /\ Permutation rating_lst out
    /\ StronglySorted (desc K key gtb) out
    /\ forall k, filter (tied K key gtb k) out = filter (tied K key gtb k) rating_lst.
Proof.
  induction fuel as [|fuel IH]; intros rating_lst sorted_lst Hpos Hlen.
  - destruct rating_lst; [|simpl in Hlen; lia].
    exists []. simpl. rewrite app_nil_r. repeat split; auto. constructor.
  - destruct rating_lst as [|m rest].
    { exists []. simpl. rewrite app_nil_r. repeat split; auto. constructor. }
    cbn [selection_loop].
    destruct (scan_first_greatest (m :: rest) zero None)
      as [[Hall _] | (l1 & b & l2 & Heq & Hs & Hb & H1 & H2)].
    { inversion Hall; subst. inversion Hpos; subst. congruence. }
    rewrite Hs, Heq, (list_remove_middle _ _ _ H1).
    assert (Hpos' : Forall (fun e => gtb (key e) zero = true) (l1 ++ l2)).
    { rewrite Heq in Hpos. apply Forall_app in Hpos as [Ha Hb'].
      inversion Hb'; subst. apply Forall_app; auto. }
    assert (Hlen' : (List.length (l1 ++ l2) <= fuel)%nat).
    { rewrite Heq in Hlen. rewrite length_app in *. simpl in Hlen. lia. }
    destruct (IH (l1 ++ l2) (sorted_lst ++ [b]) Hpos' Hlen')
      as (out & Hrun & Hperm & Hsorted & Hstable).
    exists (b :: out). repeat split.
    + rewrite Hrun, <- app_assoc. reflexivity.
    + apply Permutation_sym, Permutation_cons_app, Permutation_sym, Hperm.
    + constructor; [assumption|].
      apply (Permutation_Forall Hperm), Forall_app. split.
      * eapply Forall_impl; [|exact H1]. intros a Ha. apply gtb_asym, Ha.
      * exact H2.
    + intros k. rewrite filter_app. simpl. rewrite Hstable, filter_app.
      destruct (tied K key gtb k b) eqn:Hb'; [|reflexivity].
      now rewrite (filter_tied_before k l1 b H1 Hb').
Qed.

(** An entry whose key does not exceed [zero] is never selected, so the
    loop never empties a list that holds one: no amount of fuel lets it
    return. *)
Lemma selection_loop_diverges fuel : forall rating_lst sorted_lst,
  Exists (fun e => gtb (key e) zero = false) rating_lst ->
  selection_loop K key gtb zero fuel rating_lst sorted_lst = None.
Proof.
  induction fuel as [|fuel IH]; intros rating_lst sorted_lst Hex.
  - destruct rating_lst; [inversion Hex | reflexivity].
  - destruct rating_lst as [|m rest]; [inversion Hex|].
    cbn [selection_loop].
    destruct (scan_first_greatest (m :: rest) zero None)
      as [[_ Hs] | (l1 & b & l2 & Heq & Hs & Hb & H1 & H2)].
    + rewrite Hs. apply IH, Hex.
    + rewrite Hs, Heq, (list_remove_middle _ _ _ H1).
      apply IH. rewrite Heq in Hex.
      apply Exists_app in Hex as [Hex | Hex]; apply Exists_app; auto.
      inversion Hex; subst; [congruence | auto].
Qed.
End SelectionFacts.

Lemma StronglySorted_adjacent {A : Type} (R : A -> A -> Prop) (l : list A) :
  StronglySorted R l ->
  forall i a b, nth_error l i = Some a -> nth_error l (S i) = Some b -> R a b.
Proof.
  induction 1 as [|x l Hs IH Hall]; intros i a b Ha Hb.
  - destruct i; discriminate.
  - destruct i as [|i]; simpl in Ha, Hb.
    + injection Ha as <-. destruct l as [|y l]; [discriminate|].
      injection Hb as <-. now inversion Hall.
    + eapply IH; eassumption.
Qed.

Lemma StronglySorted_weaken {A : Type} (R R' : A -> A -> Prop) (l : list A) :
  (forall a b, R a b -> R' a b) -> StronglySorted R l -> StronglySorted R' l.
Proof.
  intros HR. induction 1 as [|x l Hs IH Hall]; constructor; auto.
  eapply Forall_impl; [|exact Hall]. intros b. apply HR.
Qed.

Lemma StronglySorted_snoc {A : Type} (R : A -> A -> Prop) (l : list A) (x : A) :
  StronglySorted R l -> Forall (fun y => R y x) l -> StronglySorted R (l ++ [x]).
Proof.
  induction 1 as [|y l Hs IH Hall]; intros Hx; simpl.
  - repeat constructor.
  - inversion Hx; subst. constructor; [now apply IH|].
    apply Forall_app. split; [assumption | now constructor].
Qed.

Lemma StronglySorted_rev {A : Type} (R : A -> A -> Prop) (l : list A) :
  StronglySorted R l -> StronglySorted (fun a b => R b a) (rev l).
Proof.
  induction 1 as [|x l Hs IH Hall]; simpl; [constructor|].
  apply StronglySorted_snoc; [assumption | now apply Forall_rev].
Qed.

(** ** Sorting by rating *)

Lemma tied_rating (k : Q) (e : Entry) :
  tied Q e_rating Qgtb k e = Qeq_bool (e_rating e) k.
Proof.
  unfold tied. apply eq_true_iff_eq.
  rewrite andb_true_iff, !negb_true_iff, !Qgtb_false, Qeq_bool_iff.
  split; [intros [H1 H2]; now apply Qle_antisym | intros ->; split; apply Qle_refl].
Qed.

Lemma rating_loop_sorts (fuel : nat) (rating_lst : list Entry) :
  Forall (fun e => (0 < e_rating e)%Q) rating_lst ->
  (List.length rating_lst <= fuel)%nat ->
  exists out,
    selection_loop Q e_rating Qgtb 0%Q fuel rating_lst [] = Some (Return out)
    /\ Permutation rating_lst out
    /\ StronglySorted (fun a b => (e_rating b <= e_rating a)%Q) out
    /\ forall r, filter (fun e => Qeq_bool (e_rating e) r) out
                 = filter (fun e => Qeq_bool (e_rating e) r) rating_lst.
Proof.
  intros Hpos Hlen.
  destruct (selection_loop_sorts Q e_rating Qgtb 0%Q) with (fuel := fuel)
    (rating_lst := rating_lst) (sorted_lst := @nil Entry)
    as (out & Hrun & Hperm & Hsorted & Hstable); try assumption.
  - intros a b c. rewrite !Qgtb_true. intros; now apply Qlt_trans with b.
  - intros a b c. rewrite !Qgtb_false. intros; now apply Qle_trans with b.
  - intros a b. rewrite Qgtb_true, Qgtb_false. apply Qlt_le_weak.
  - intros x y E. apply Entry_eqb_fields in E as (_ & _ & E).
    apply Qgtb_false. rewrite E. apply Qle_refl.
  - eapply Forall_impl; [|exact Hpos]. intros e He. now apply Qgtb_true.
  - exists out. repeat split; auto.
    + eapply StronglySorted_weaken; [|exact Hsorted].
      intros a b. unfold desc. now rewrite Qgtb_false.
    + intros r. rewrite <- (filter_ext _ _ (tied_rating r) out),
        <- (filter_ext _ _ (tied_rating r) rating_lst). apply Hstable.
Qed.

Example sort_by_rating_scenario :
  sort_movies_by_rating 3 scenario
  = Some [MovieLine (mkEntry "B" 2010 9); MovieLine (mkEntry "C" 2010 9);
          MovieLine (mkEntry "A" 2000 5)].
Proof. reflexivity. Qed.

(** C3 (as amended): for every non-empty snapshot whose ratings are all
    greater than 0, [sort_movies_by_rating] returns -- as soon as its loop
    is given one round per entry -- the lines of a permutation of the
    snapshot's entries, of equal length, in which every adjacent pair (a,b)
    has rating(a) >= rating(b) and entries of equal rating keep their
    snapshot order. *)
Theorem sort_movies_by_rating_stable_descending (movies : Movies) (fuel : nat) :
  movies <> [] ->
  Forall (fun m => (0 < rating (snd m))%Q) movies ->
  (List.length movies <= fuel)%nat ->
  sorted_by_rating_at fuel movies.
Proof.
  intros Hne Hpos Hlen.
  destruct (rating_loop_sorts fuel (entries movies))
    as (out & Hrun & Hperm & Hsorted & Hstable).
  - unfold entries. apply Forall_map. exact Hpos.
  - unfold entries. now rewrite length_map.
  - exists out. unfold sort_movies_by_rating.
    destruct movies as [|m rest]; [congruence|].
    rewrite Hrun. repeat split; auto.
    + rewrite <- (Permutation_length Hperm). unfold entries. apply length_map.
    + exact (StronglySorted_adjacent _ _ Hsorted).
Qed.

Lemma sort_movies_by_rating_scenario_sorted : sorted_by_rating_at 3 scenario.
Proof.
  apply (sort_movies_by_rating_stable_descending scenario 3).
  - discriminate.
  - repeat constructor.
  - simpl. lia.
Defined.

(** On the empty snapshot the function reports the empty database. *)
Lemma sort_movies_by_rating_empty (fuel : nat) :
  sort_movies_by_rating fuel [] = Some [Text EMPTY_DB].
Proof. reflexivity. Qed.

(** A rating that is not greater than the [0.0] the scan starts from is
    never selected: whatever the fuel, the loop has not returned. *)
Lemma sort_movies_by_rating_diverges (movies : Movies) (fuel : nat) :
  Exists (fun m => (rating (snd m) <= 0)%Q) movies ->
  sort_movies_by_rating fuel movies = None.
Proof.
  intros Hex. unfold sort_movies_by_rating.
  destruct movies as [|m rest]; [inversion Hex|].
  rewrite (selection_loop_diverges Q e_rating Qgtb 0%Q); [reflexivity|..].
  - intros a b c. rewrite !Qgtb_true. intros; now apply Qlt_trans with b.
  - intros a b c. rewrite !Qgtb_false. intros; now apply Qle_trans with b.
  - intros x y E. apply Entry_eqb_fields in E as (_ & _ & E).
    apply Qgtb_false. rewrite E. apply Qle_refl.
  - unfold entries. apply Exists_map. 
    eapply Exists_impl; [|exact Hex]. intros e He. now apply Qgtb_false.
Qed.

(** C3, as stated, fails on the empty snapshot (the function answers with
    its empty-database message, one line that is no entry) and on a
    snapshot that holds a rating of 0 (the loop does not return). *)
Lemma sort_movies_by_rating_not_every_snapshot :
  ~ (exists fuel, sorted_by_rating_at fuel [])
  /\ ~ (exists fuel, sorted_by_rating_at fuel [("A", mkInfo 2000 0)]).
Proof.
  split; intros (fuel & out & Hrun & _).
  - rewrite sort_movies_by_rating_empty in Hrun.
    destruct out; discriminate.
  - rewrite sort_movies_by_rating_diverges in Hrun; [discriminate|].
    constructor. simpl. apply Qle_refl.
Qed.

(** ** Sorting by year *)

Lemma tied_year (k : Z) (e : Entry) :
  tied Z e_year Zgtb k e = Z.eqb (e_year e) k.
Proof.
  unfold tied. apply eq_true_iff_eq.
  rewrite andb_true_iff, !negb_true_iff, !Zgtb_false, Z.eqb_eq. lia.
Qed.

Lemma year_loop_sorts (fuel : nat) (year_lst : list Entry) :
  Forall (fun e => 0 < e_year e) year_lst ->
  (List.length year_lst <= fuel)%nat ->
  exists out,
    selection_loop Z e_year Zgtb 0 fuel year_lst [] = Some (Return out)
    /\ Permutation year_lst out
    /\ StronglySorted (fun a b => e_year b <= e_year a) out
    /\ forall y, of_year y out = of_year y year_lst.
Proof.
  intros Hpos Hlen.
  destruct (selection_loop_sorts Z e_year Zgtb 0) with (fuel := fuel)
    (rating_lst := year_lst) (sorted_lst := @nil Entry)
    as (out & Hrun & Hperm & Hsorted & Hstable); try assumption.
  - intros a b c. rewrite !Zgtb_true. lia.
  - intros a b c. rewrite !Zgtb_false. lia.
  - intros a b. rewrite Zgtb_true, Zgtb_false. lia.
  - intros x y E. apply Entry_eqb_fields in E as (_ & E & _).
    apply Zgtb_false. lia.
  - eapply Forall_impl; [|exact Hpos]. intros e He. now apply Zgtb_true.
  - exists out. repeat split; auto.
    + eapply StronglySorted_weaken; [|exact Hsorted].
      intros a b. unfold desc. now rewrite Zgtb_false.
    + intros y. unfold of_year.
      rewrite <- (filter_ext _ _ (tied_year y) out),
        <- (filter_ext _ _ (tied_year y) year_lst). apply Hstable.
Qed.

Lemma map_MovieLine_inj (l l' : list Entry) :
  map MovieLine l = map MovieLine l' -> l = l'.
Proof.
  revert l'. induction l as [|a l IH]; intros [|b l'] H; try discriminate.
  - reflexivity.
  - simpl in H. injection H as -> H. f_equal. now apply IH.
Qed.

Example sort_by_year_scenario_young :
  sort_movies_by_year 3 ["young"] scenario
  = Some [MovieLine (mkEntry "B" 2010 9); MovieLine (mkEntry "C" 2010 9);
          MovieLine (mkEntry "A" 2000 5)].
Proof. reflexivity. Qed.

Example sort_by_year_scenario_old :
  sort_movies_by_year 3 ["old"] scenario
  = Some [MovieLine (mkEntry "A" 2000 5); MovieLine (mkEntry "C" 2010 9);
          MovieLine (mkEntry "B" 2010 9)].
Proof. reflexivity. Qed.

(** C4 (as amended): for every non-empty snapshot whose years are all
    greater than 0 and for both directions, [sort_movies_by_year] returns
    -- with one round of its loop per entry, on the user's choice "old" for
    ascending and "young" for descending -- the snapshot's entries sorted
    by year in that direction; entries of equal year keep their snapshot
    order in the descending result and come in the reverse of their
    snapshot order in the ascending one, which is the descending result
    reversed. *)
Theorem sort_movies_by_year_directions (movies : Movies) (fuel : nat)
  (d : Direction) (later : list string) :
  movies <> [] ->
  Forall (fun m => 0 < year (snd m)) movies ->
  (List.length movies <= fuel)%nat ->
  exists out,
    sort_movies_by_year fuel (direction_input d :: later) movies
      = Some (map MovieLine out)
    /\ sort_movies_by_year fuel ("young" :: later) movies
      = Some (map MovieLine (tie_order d out))
    /\ Permutation (entries movies) out
    /\ adjacent_pairs (in_direction d) out
    /\ forall y, of_year y out = tie_order d (of_year y (entries movies)).
Proof.
  intros Hne Hpos Hlen.
  destruct (year_loop_sorts fuel (entries movies))
    as (out & Hrun & Hperm & Hsorted & Hstable).
  - unfold entries. apply Forall_map. exact Hpos.
  - unfold entries. now rewrite length_map.
  - unfold sort_movies_by_year.
    destruct movies as [|m rest]; [congruence|].
    rewrite Hrun. destruct d; cbn [direction_input choose_direction tie_order].
    + exists (rev out). rewrite rev_involutive.
      split; [reflexivity|]. split; [reflexivity|]. split; [|split].
      * rewrite Hperm. apply Permutation_rev.
      * exact (StronglySorted_adjacent _ _ (StronglySorted_rev _ _ Hsorted)).
      * intros y. unfold of_year. rewrite filter_rev. f_equal. apply Hstable.
    + exists out.
      split; [reflexivity|]. split; [reflexivity|]. split; [|split]; auto.
      exact (StronglySorted_adjacent _ _ Hsorted).
Qed.

Lemma sort_movies_by_year_scenario_ascending :
  exists out,
    sort_movies_by_year 3 ["old"] scenario = Some (map MovieLine out)
    /\ sort_movies_by_year 3 ["young"] scenario = Some (map MovieLine (rev out))
    /\ Permutation (entries scenario) out
    /\ adjacent_pairs (in_direction Ascending) out
    /\ forall y, of_year y out = rev (of_year y (entries scenario)).
Proof.
  apply (sort_movies_by_year_directions scenario 3 Ascending []).
  - discriminate.
  - repeat constructor.
  - simpl. lia.
Defined.

Lemma sort_movies_by_year_empty (fuel : nat) (inputs : list string) :
  sort_movies_by_year fuel inputs [] = Some [Text EMPTY_DB].
Proof. reflexivity. Qed.

(** A year that is not greater than the [0] the scan starts from keeps the
    loop from returning, as for the ratings. *)
Lemma sort_movies_by_year_diverges (movies : Movies) (fuel : nat)
  (inputs : list string) :
  Exists (fun m => year (snd m) <= 0) movies ->
  sort_movies_by_year fuel inputs movies = None.
Proof.
  intros Hex. unfold sort_movies_by_year.
  destruct movies as [|m rest]; [inversion Hex|].
  rewrite (selection_loop_diverges Z e_year Zgtb 0); [reflexivity|..].
  - intros a b c. rewrite !Zgtb_true. lia.
  - intros a b c. rewrite !Zgtb_false. lia.
  - intros x y E. apply Entry_eqb_fields in E as (_ & E & _).
    apply Zgtb_false. lia.
  - unfold entries. apply Exists_map.
    eapply Exists_impl; [|exact Hex]. intros e He. now apply Zgtb_false.
Qed.

(** C4, as stated, fails in the ascending direction: on the scenario's
    catalog the two entries of 2010 come out as C, B, not in their snapshot
    order B, C. *)
Lemma sort_movies_by_year_ascending_reverses_ties :
  ~ (exists fuel, sorted_by_year_at fuel Ascending scenario).
Proof.
  intros (fuel & out & Hrun & _ & _ & Hstable).
  assert (Hout : out = [mkEntry "A" 2000 5; mkEntry "C" 2010 9; mkEntry "B" 2010 9]).
  { destruct fuel as [|[|[|[|fuel]]]]; try discriminate Hrun;
      injection Hrun as Hrun; symmetry; apply map_MovieLine_inj, Hrun. }
  subst out. specialize (Hstable 2010). discriminate Hstable.
Qed.

(** ** Statistics *)

Lemma insert_sorted_perm (x : Q) (lst : list Q) :
  Permutation (x :: lst) (insert_sorted x lst).
Proof.
  induction lst as [|y rest IH]; simpl; [reflexivity|].
  destruct (Qltb y x); [|reflexivity].
  rewrite perm_swap. now apply perm_skip.
Qed.

Lemma sorted_perm (lst : list Q) : Permutation lst (sorted lst).
Proof.
  induction lst as [|x rest IH]; simpl; [reflexivity|].
  rewrite <- insert_sorted_perm. now apply perm_skip.
Qed.

Lemma insert_sorted_ascending (x : Q) (lst : list Q) :
  StronglySorted Qle lst -> StronglySorted Qle (insert_sorted x lst).
Proof.
  induction 1 as [|y rest Hs IH Hall]; simpl.
  - repeat constructor.
  - destruct (Qltb y x) eqn:E.
    + constructor; [assumption|].
      apply (Permutation_Forall (insert_sorted_perm x rest)).
      constructor; [|assumption]. apply Qlt_le_weak. now apply Qltb_true.
    + apply Qltb_false in E.
      constructor; [now constructor|].
      constructor; [assumption|].
      eapply Forall_impl; [|exact Hall]. intros z Hz. now apply Qle_trans with y.
Qed.

Lemma sorted_ascending (lst : list Q) : StronglySorted Qle (sorted lst).
Proof.
  induction lst as [|x rest IH]; simpl; [constructor|].
  now apply insert_sorted_ascending.
Qed.

Lemma sorted_length (lst : list Q) : List.length (sorted lst) = List.length lst.
Proof. symmetry. apply Permutation_length, sorted_perm. Qed.

Example median_of_four :
  calc_rating_median
    [("W", mkInfo 2001 1); ("X", mkInfo 2002 4); ("Y", mkInfo 2003 2);
     ("Z", mkInfo 2004 3)]
  = Return (MedianLine 3).
Proof. reflexivity. Qed.

(** C5: for every non-empty snapshot with n entries, [calc_rating_median]
    returns the element at index floor(n/2) of the ascending-sorted list of
    the ratings (a permutation of the ratings in which each element is at
    most every later one), and it is the median line of the statistics;
    over the ratings 5.0, 9.0, 9.0 of the scenario it is 9.0. *)
Theorem calc_rating_median_index :
  (forall movies : Movies,
     movies <> [] ->
     exists s v,
       Permutation (ratings movies) s
       /\ StronglySorted Qle s
       /\ nth_error s (Nat.div (List.length movies) 2) = Some v
       /\ calc_rating_median movies = Return (MedianLine v)
       /\ exists average best worst,
            calc_stats_for_all_movies movies
            = StatsTuple average (MedianLine v) best worst)
  /\ ratings scenario = [5; 9; 9]%Q
  /\ calc_rating_median scenario = Return (MedianLine 9).
Proof.
  split; [|split; reflexivity].
  intros movies Hne.
  assert (Hlen : List.length (sorted (ratings movies)) = List.length movies).
  { rewrite sorted_length. unfold ratings. apply length_map. }
  destruct (nth_error (sorted (ratings movies)) (Nat.div (List.length movies) 2))
    as [v|] eqn:Hv.
  - exists (sorted (ratings movies)), v.
    assert (Hmed : calc_rating_median movies = Return (MedianLine v)).
    { unfold calc_rating_median, list_index. rewrite Hlen, Hv. reflexivity. }
    repeat split; auto using sorted_perm, sorted_ascending.
    unfold calc_stats_for_all_movies, calc_stats_body. rewrite Hmed.
    destruct movies as [|m rest]; [congruence|].
    cbn. eauto.
  - apply nth_error_None in Hv. rewrite Hlen in Hv.
    destruct movies as [|m rest]; [congruence|]. exfalso.
    pose proof (Nat.div_lt (List.length (m :: rest)) 2) as Hlt.
    simpl in Hlt, Hv. lia.
Qed.

Lemma calc_rating_median_scenario :
  exists s v,
    Permutation (ratings scenario) s
    /\ StronglySorted Qle s
    /\ nth_error s (Nat.div (List.length scenario) 2) = Some v
    /\ calc_rating_median scenario = Return (MedianLine v)
    /\ exists average best worst,
         calc_stats_for_all_movies scenario
         = StatsTuple average (MedianLine v) best worst.
Proof.
  apply (proj1 calc_rating_median_index scenario). discriminate.
Defined.

(** On an empty snapshot the median step alone would raise [IndexError],
    which the handler reports as an unexpected error; inside
    [calc_stats_for_all_movies] it is not reached, the average having
    raised before it. *)
Lemma calc_rating_median_empty_not_reached :
  calc_rating_median [] = Raise IndexError
  /\ handle_stats IndexError = [UnexpectedLine IndexError]
  /\ calc_stats_body [] = Raise ZeroDivisionError.
Proof. repeat split. Qed.

(** C6, as stated, fails for the median taken by itself: on an empty
    snapshot [calc_rating_median] raises [IndexError], and the handler of
    the statistics answers that exception with its unexpected-error line,
    not with the empty-database message. *)
Lemma median_alone_is_not_empty_catalog :
  calc_rating_median [] = Raise IndexError
  /\ handle_stats IndexError = [UnexpectedLine IndexError]
  /\ match calc_rating_median [] with
     | Raise e => handle_stats e <> [Text EMPTY_DB]
     | Return _ => True
     end.
Proof. repeat split. discriminate. Qed.

(** C6 (as amended): on an empty snapshot the statistics, which compute
    the average first and the median after it, and the random pick each
    answer with the empty-database message, a returned value, and raise
    nothing.  The message of the statistics is the answer to the division
    by zero of the average; the median step is not reached, whatever it
    would do. *)
Theorem empty_catalog_is_reported :
  calc_rating_average [] = Raise ZeroDivisionError
  /\ handle_stats ZeroDivisionError = [Text EMPTY_DB]
  /\ calc_stats_body [] = Raise ZeroDivisionError
  /\ (forall median_step : Movies -> Res StatLine,
        (average <- calc_rating_average [] ;;
         median <- median_step [] ;;
         Return (average, median))
        = Raise ZeroDivisionError)
  /\ calc_stats_for_all_movies [] = StatsMessage [Text EMPTY_DB]
  /\ forall draw, return_random_movie draw [] = [Text EMPTY_DB].
Proof. repeat split. Qed.

(** ** Best and worst *)

Lemma fold_max_greatest (rest : list Q) : forall x,
  let m := fold_left (fun m y => if Qgtb y m then y else m) rest x in
  (m = x \/ In m rest) /\ (x <= m)%Q /\ Forall (fun y => (y <= m)%Q) rest.
Proof.
  induction rest as [|y rest IH]; intros x; simpl.
  - repeat split; auto. apply Qle_refl.
  - destruct (Qgtb y x) eqn:E.
    + destruct (IH y) as (Hin & Hle & Hall).
      apply Qgtb_true in E. repeat split.
      * destruct Hin as [-> | Hin]; auto.
      * apply Qle_trans with y; [now apply Qlt_le_weak | assumption].
      * constructor; assumption.
    + destruct (IH x) as (Hin & Hle & Hall).
      apply Qgtb_false in E. repeat split.
      * destruct Hin as [-> | Hin]; auto.
      * assumption.
      * constructor; [now apply Qle_trans with x | assumption].
Qed.

Lemma fold_min_least (rest : list Q) : forall x,
  let m := fold_left (fun m y => if Qltb y m then y else m) rest x in
  (m = x \/ In m rest) /\ (m <= x)%Q /\ Forall (fun y => (m <= y)%Q) rest.
Proof.
  induction rest as [|y rest IH]; intros x; simpl.
  - repeat split; auto. apply Qle_refl.
  - destruct (Qltb y x) eqn:E.
    + destruct (IH y) as (Hin & Hle & Hall).
      apply Qltb_true in E. repeat split.
      * destruct Hin as [-> | Hin]; auto.
      * apply Qle_trans with y; [assumption | now apply Qlt_le_weak].
      * constructor; assumption.
    + destruct (IH x) as (Hin & Hle & Hall).
      apply Qltb_false in E. repeat split.
      * destruct Hin as [-> | Hin]; auto.
      * assumption.
      * constructor; [now apply Qle_trans with x | assumption].
Qed.

Lemma py_max_greatest (lst : list Q) :
  lst <> [] ->
  exists hi, py_max lst = Return hi /\ In hi lst /\ Forall (fun r => (r <= hi)%Q) lst.
Proof.
  destruct lst as [|x rest]; [congruence|]. intros _.
  destruct (fold_max_greatest rest x) as (Hin & Hle & Hall).
  eexists. split; [reflexivity|]. split.
  - simpl. destruct Hin as [-> | Hin]; auto.
  - constructor; assumption.
Qed.

Lemma py_min_least (lst : list Q) :
  lst <> [] ->
  exists lo, py_min lst = Return lo /\ In lo lst /\ Forall (fun r => (lo <= r)%Q) lst.
Proof.
  destruct lst as [|x rest]; [congruence|]. intros _.
  destruct (fold_min_least rest x) as (Hin & Hle & Hall).
  eexists. split; [reflexivity|]. split.
  - simpl. destruct Hin as [-> | Hin]; auto.
  - constructor; assumption.
Qed.

Lemma of_rating_member (movies : Movies) (r : Q) :
  In r (ratings movies) -> of_rating r (entries movies) <> [].
Proof.
  unfold ratings, entries. rewrite in_map_iff. intros (m & <- & Hm) Hnil.
  assert (Hin : In (entry_of m) (of_rating (rating (snd m)) (map entry_of movies))).
  { apply filter_In. split; [now apply in_map|]. apply Qeq_bool_true_refl. }
  rewrite Hnil in Hin. destruct Hin.
Qed.

Example best_and_worst_scenario :
  return_best_movie scenario
  = Return (BestLine [mkEntry "B" 2010 9; mkEntry "C" 2010 9])
  /\ return_worst_movie scenario = Return (WorstLine [mkEntry "A" 2000 5]).
Proof. split; reflexivity. Qed.

(** C7: for every non-empty snapshot, [return_best_movie] and
    [return_worst_movie] each return a non-empty sequence, which holds
    exactly the entries whose rating equals the greatest (the least) rating
    of the snapshot, all of them, in snapshot order. *)
Theorem best_and_worst_are_all_ties (movies : Movies) :
  movies <> [] ->
  exists hi lo,
    (In hi (ratings movies) /\ Forall (fun r => (r <= hi)%Q) (ratings movies))
    /\ (In lo (ratings movies) /\ Forall (fun r => (lo <= r)%Q) (ratings movies))
    /\ return_best_movie movies = Return (BestLine (of_rating hi (entries movies)))
    /\ return_worst_movie movies = Return (WorstLine (of_rating lo (entries movies)))
    /\ of_rating hi (entries movies) <> []
    /\ of_rating lo (entries movies) <> []
    /\ (forall e, In e (of_rating hi (entries movies))
                  <-> In e (entries movies) /\ (e_rating e == hi)%Q)
    /\ (forall e, In e (of_rating lo (entries movies))
                  <-> In e (entries movies) /\ (e_rating e == lo)%Q).
Proof.
  intros Hne.
  assert (Hr : ratings movies <> []).
  { destruct movies; [congruence | discriminate]. }
  destruct (py_max_greatest _ Hr) as (hi & Hmax & Hhi & Hall_hi).
  destruct (py_min_least _ Hr) as (lo & Hmin & Hlo & Hall_lo).
  exists hi, lo.
  split; [auto|]. split; [auto|].
  split; [unfold return_best_movie; now rewrite Hmax|].
  split; [unfold return_worst_movie; now rewrite Hmin|].
  split; [now apply of_rating_member|].
  split; [now apply of_rating_member|].
  split; intros e; unfold of_rating; rewrite filter_In, Qeq_bool_iff; reflexivity.
Qed.

Lemma best_and_worst_scenario_ties :
  exists hi lo,
    (In hi (ratings scenario) /\ Forall (fun r => (r <= hi)%Q) (ratings scenario))
    /\ (In lo (ratings scenario) /\ Forall (fun r => (lo <= r)%Q) (ratings scenario))
    /\ return_best_movie scenario = Return (BestLine (of_rating hi (entries scenario)))
    /\ return_worst_movie scenario = Return (WorstLine (of_rating lo (entries scenario)))
    /\ of_rating hi (entries scenario) <> []
    /\ of_rating lo (entries scenario) <> []
    /\ (forall e, In e (of_rating hi (entries scenario))
                  <-> In e (entries scenario) /\ (e_rating e == hi)%Q)
    /\ (forall e, In e (of_rating lo (entries scenario))
                  <-> In e (entries scenario) /\ (e_rating e == lo)%Q).
Proof.
  apply (best_and_worst_are_all_ties scenario). discriminate.
Defined.

(** ** Search *)

Lemma prefix_iff (needle hay : string) :
  prefix needle hay = true <-> exists post, hay = (needle ++ post)%string.
Proof.
  revert hay. induction needle as [|a needle IH]; intros hay.
  - split; [intros _; now exists hay | intros _; now destruct hay].
  - destruct hay as [|b hay]; simpl.
    + split; [discriminate | intros [post H]; discriminate].
    + destruct (ascii_dec a b) as [->|Hab].
      * rewrite IH. split; intros [post H]; exists post.
        -- now rewrite H.
        -- now injection H.
      * split; [discriminate|]. intros [post H]. injection H as H _. congruence.
Qed.

Lemma contains_iff (needle hay : string) :
  contains needle hay = true
  <-> exists pre post, hay = (pre ++ needle ++ post)%string.
Proof.
  induction hay as [|b hay IH]; cbn [contains]; rewrite orb_true_iff, prefix_iff.
  - split.
    + intros [[post H] | H]; [|discriminate]. now exists EmptyString, post.
    + intros (pre & post & H). left. destruct pre; [now exists post|discriminate].
  - rewrite IH. split.
    + intros [[post H] | (pre & post & H)].
      * now exists EmptyString, post.
      * exists (String b pre), post. simpl. now rewrite H.
    + intros (pre & post & H). destruct pre as [|c pre]; simpl in H.
      * left. now exists post.
      * right. injection H as _ H. now exists pre, post.
Qed.

Lemma contains_empty (hay : string) : contains EmptyString hay = true.
Proof. apply contains_iff. now exists EmptyString, hay. Qed.

Lemma search_matches_iff (substring : string) (movies : Movies) (m : string * Info) :
  In m (search_matches (lower substring) movies)
  <-> In m movies /\ contains_ci substring (fst m).
Proof.
  unfold search_matches, contains_ci. now rewrite filter_In, contains_iff.
Qed.

Lemma search_returns (search_request : string) (movies : Movies) :
  search_for_movie_in_dict search_request movies
  = match search_matches (lower search_request) movies with
    | [] => [NotFoundLine search_request]
    | found => movie_lines found
    end.
Proof.
  unfold search_for_movie_in_dict, movie_lines.
  now destruct (search_matches (lower search_request) movies).
Qed.

(** C8 (as amended): for every snapshot and substring, the entries found
    are exactly those whose title contains the substring case-insensitively,
    in snapshot iteration order; [search_for_movie_in_dict] returns their
    lines when there is one, and a single not-found line naming the
    substring -- not an empty sequence -- when nothing matches; searching
    "at" matches "Matrix" and "Batman" but not "Up". *)
Theorem search_finds_case_insensitive_matches (substring : string) (movies : Movies) :
  (forall p : string * Info -> bool,
      (forall m, p m = true <-> contains_ci substring (fst m)) ->
      search_matches (lower substring) movies = filter p movies)
  /\ (forall m, In m (search_matches (lower substring) movies)
                <-> In m movies /\ contains_ci substring (fst m))
  /\ (search_matches (lower substring) movies <> [] ->
      search_for_movie_in_dict substring movies
      = movie_lines (search_matches (lower substring) movies))
  /\ (search_matches (lower substring) movies = [] ->
      search_for_movie_in_dict substring movies = [NotFoundLine substring])
  /\ search_for_movie_in_dict "at" three_titles
     = [MovieLine (mkEntry "Matrix" 1999 (87 # 10));
        MovieLine (mkEntry "Batman" 1989 (75 # 10))].
Proof.
  split; [|split; [|split; [|split]]].
  - intros p Hp. unfold search_matches. apply filter_ext. intros m.
    apply eq_true_iff_eq. rewrite Hp, contains_iff. reflexivity.
  - intros m. apply search_matches_iff.
  - intros Hfound. rewrite search_returns.
    now destruct (search_matches (lower substring) movies).
  - intros Hnone. now rewrite search_returns, Hnone.
  - reflexivity.
Qed.

Lemma search_upper_case_request :
  search_matches (lower "AT") three_titles
  = filter (fun m => contains "at" (lower (fst m))) three_titles
  /\ search_for_movie_in_dict "AT" three_titles
     = movie_lines [("Matrix", mkInfo 1999 (87 # 10)); ("Batman", mkInfo 1989 (75 # 10))].
Proof.
  destruct (search_finds_case_insensitive_matches "AT" three_titles)
    as (Hfilter & _ & Hfound & _).
  split.
  - apply Hfilter. intros m. unfold contains_ci. now rewrite contains_iff.
  - rewrite Hfound; [reflexivity | discriminate].
Defined.

(** C8, as stated, fails when nothing matches: no title of the catalog
    contains "zz", and the function returns one line, not an empty
    sequence. *)
Lemma search_without_match_is_not_empty :
  (forall m, In m three_titles -> ~ contains_ci "zz" (fst m))
  /\ search_for_movie_in_dict "zz" three_titles = [NotFoundLine "zz"]
  /\ search_for_movie_in_dict "zz" three_titles <> [].
Proof.
  split; [|split; [reflexivity | discriminate]].
  intros m Hm Hci. apply contains_iff in Hci.
  destruct Hm as [<- | [<- | [<- | []]]]; discriminate Hci.
Qed.

(** C10 (as amended): for every non-empty snapshot, searching with the
    empty substring returns every entry of the snapshot, in snapshot
    iteration order. *)
Theorem search_empty_substring_returns_all (movies : Movies) :
  movies <> [] ->
  search_for_movie_in_dict "" movies = movie_lines movies.
Proof.
  intros Hne. rewrite search_returns.
  assert (Hall : search_matches (lower "") movies = movies).
  { unfold search_matches. simpl. induction movies as [|m rest IH]; [reflexivity|].
    simpl. rewrite contains_empty. f_equal.
    destruct rest; [reflexivity | apply IH; discriminate]. }
  rewrite Hall. destruct movies; [congruence | reflexivity].
Qed.

Lemma search_empty_substring_three_titles :
  search_for_movie_in_dict "" three_titles = movie_lines three_titles.
Proof.
  apply (search_empty_substring_returns_all three_titles). discriminate.
Defined.

(** C10, as stated, fails on the empty snapshot: the function returns its
    not-found line, which is not the (empty) sequence of the entries. *)
Lemma search_empty_substring_empty_snapshot :
  search_for_movie_in_dict "" [] = [NotFoundLine ""]
  /\ search_for_movie_in_dict "" [] <> movie_lines [].
Proof. split; [reflexivity | discriminate]. Qed.

(** ** The store *)

Lemma dict_mem_dict_set (k k' : string) (v : Info) (d : Movies) :
  dict_mem k (dict_set k' v d) = (dict_mem k d || String.eqb k' k)%bool.
Proof.
  unfold dict_mem. induction d as [|[k0 v0] rest IH]; simpl.
  - now rewrite orb_false_r.
  - destruct (String.eqb k0 k') eqn:E; simpl.
    + apply String.eqb_eq in E. subst k0.
      destruct (String.eqb k' k); simpl; [reflexivity | now rewrite orb_false_r].
    + rewrite IH. now rewrite orb_assoc.
Qed.

(** The titles of the snapshot are the titles of the table. *)
Lemma dict_mem_get_movies (k : string) (db : DB) :
  dict_mem k (get_movies db) = has_title k db.
Proof.
  unfold get_movies, has_title.
  assert (H : forall rs acc,
    dict_mem k (fold_left (fun d row => dict_set (row_title row)
                             (mkInfo (row_year row) (row_rating row)) d) rs acc)
    = (dict_mem k acc || existsb (fun r => String.eqb (row_title r) k) rs)%bool).
  { induction rs as [|r rs IH]; intros acc; simpl.
    - now rewrite orb_false_r.
    - rewrite IH, dict_mem_dict_set. now rewrite orb_assoc. }
  now rewrite H.
Qed.

(** What [add_movie] does once the provider has answered with a JSON
    body. *)
Lemma add_movie_on_answer (omdb : string -> Http) (fault : option string)
  (title : string) (db : DB) (status_code : Z) (parsed : Omdb) :
  omdb title = Response status_code (Some parsed) ->
  add_movie omdb fault title db
  = if negb (Z.eqb status_code 200) then (Return (ApiConnection title), db)
    else match parsed with
         | OmdbFalse => (Return (NotFound title), db)
         | OmdbMovie Title Year imdbRating Poster =>
             if has_title Title db then (Return (Duplicate Title), db)
             else match fault with
                  | Some detail => (Return (DatabaseError detail), db)
                  | None =>
                      (Return (Added Title Year imdbRating Poster),
                       mkDB (rows db ++ [mkRow (last_id db + 1) Title Year imdbRating Poster])
                            (last_id db + 1))
                  end
         end.
Proof.
  intros Hanswer. unfold add_movie. rewrite Hanswer.
  destruct (negb (Z.eqb status_code 200)); [reflexivity|].
  destruct parsed as [|Title Year imdbRating Poster]; [reflexivity|].
  rewrite dict_mem_get_movies. unfold sql_insert.
  destruct (has_title Title db) eqn:E; [reflexivity|].
  destruct fault; reflexivity.
Qed.

(** A response whose body is not JSON makes [res.json()] raise, whatever
    the status code, before the status is looked at. *)
Lemma add_movie_on_unparsable_body (omdb : string -> Http) (fault : option string)
  (title : string) (db : DB) (status_code : Z) :
  omdb title = Response status_code None ->
  add_movie omdb fault title db = (Raise JSONDecodeError, db).
Proof. intros Hanswer. unfold add_movie. now rewrite Hanswer. Qed.

(** C1 (at the failing input): when the request to the provider fails in
    transport, [requests.get] raises and [add_movie] lets the exception
    out; it returns no outcome, and so not the provider-error one.  The
    database is as before. *)
Theorem add_movie_transport_failure_raises (omdb : string -> Http)
  (fault : option string) (title : string) (db : DB) (detail : string) :
  omdb title = GetRaises detail ->
  add_movie omdb fault title db = (Raise (ConnectionError detail), db)
  /\ forall outcome db', add_movie omdb fault title db <> (Return outcome, db').
Proof.
  intros Hfail. unfold add_movie. rewrite Hfail.
  split; [reflexivity | discriminate].
Qed.

Lemma add_movie_connection_refused :
  add_movie (fun _ => GetRaises "Connection refused") None "Matrix" one_movie
  = (Raise (ConnectionError "Connection refused"), one_movie)
  /\ forall outcome db',
       add_movie (fun _ => GetRaises "Connection refused") None "Matrix" one_movie
       <> (Return outcome, db').
Proof.
  apply (add_movie_transport_failure_raises
           (fun _ => GetRaises "Connection refused") None "Matrix" one_movie
           "Connection refused").
  reflexivity.
Defined.

Lemma has_title_sql_delete (title : string) (db : DB) :
  has_title title (sql_delete title db) = false.
Proof.
  unfold has_title, sql_delete. simpl.
  induction (rows db) as [|r rs IH]; simpl; [reflexivity|].
  destruct (String.eqb (row_title r) title) eqn:E; simpl; [assumption|].
  now rewrite E.
Qed.

Lemma sql_delete_absent (title : string) (db : DB) :
  has_title title db = false -> sql_delete title db = db.
Proof.
  destruct db as [rs n]. unfold has_title, sql_delete. simpl. intros H. f_equal.
  induction rs as [|r rs IH]; simpl in *; [reflexivity|].
  apply orb_false_iff in H as [E H]. rewrite E. simpl. f_equal. now apply IH.
Qed.

Lemma sql_update_absent (title : string) (new_rating : Q) (db : DB) :
  has_title title db = false -> sql_update title new_rating db = db.
Proof.
  destruct db as [rs n]. unfold has_title, sql_update. simpl. intros H. f_equal.
  induction rs as [|r rs IH]; simpl in *; [reflexivity|].
  apply orb_false_iff in H as [E H]. rewrite E. f_equal. now apply IH.
Qed.

(** C2 (as amended): [delete_movie] and [update_movie] return true exactly
    when the store executes the statement without raising -- whether or not
    a record has the title -- and false when it raises, the database being
    then as before.  After a true result of [delete_movie] no record has
    the title and the others are as before, in order; after a true result
    of [update_movie] the records of that title carry the given rating.
    When no record has the title, the database is unchanged. *)
Theorem delete_and_update_report_execution (fault : option string)
  (title : string) (new_rating : Q) (db : DB) :
  (fst (delete_movie fault title db) = true <-> fault = None)
  /\ (fst (update_movie fault title new_rating db) = true <-> fault = None)
  /\ (fst (delete_movie fault title db) = true ->
      has_title title (snd (delete_movie fault title db)) = false
      /\ rows (snd (delete_movie fault title db))
         = filter (fun r => negb (String.eqb (row_title r) title)) (rows db))
  /\ (fst (update_movie fault title new_rating db) = true ->
      rows (snd (update_movie fault title new_rating db))
      = map (fun r => if String.eqb (row_title r) title
                      then with_rating new_rating r else r) (rows db))
  /\ (fst (delete_movie fault title db) = false ->
      snd (delete_movie fault title db) = db)
  /\ (fst (update_movie fault title new_rating db) = false ->
      snd (update_movie fault title new_rating db) = db)
  /\ (has_title title db = false ->
      snd (delete_movie fault title db) = db
      /\ snd (update_movie fault title new_rating db) = db).
Proof.
  unfold delete_movie, update_movie.
  destruct fault as [detail|]; simpl.
  - repeat split; try discriminate; auto.
  - repeat split; try discriminate; auto using has_title_sql_delete,
      sql_delete_absent, sql_update_absent.
Qed.

Lemma delete_and_update_matrix :
  has_title "Matrix" (snd (delete_movie None "Matrix" one_movie)) = false
  /\ rows (snd (update_movie None "Matrix" 9 one_movie))
     = [mkRow 1 "Matrix" 1999 9 "url"]
  /\ snd (delete_movie None "Ghost" one_movie) = one_movie.
Proof.
  destruct (delete_and_update_report_execution None "Matrix" 9 one_movie)
    as (_ & _ & Hdel & Hupd & _).
  destruct (delete_and_update_report_execution None "Ghost" 9 one_movie)
    as (_ & _ & _ & _ & _ & _ & Habsent).
  split; [apply Hdel; reflexivity|].
  split; [rewrite Hupd; reflexivity|].
  apply Habsent. reflexivity.
Defined.

(** C2, as stated, fails on an absent title: no record of the database is
    titled "Ghost", and both functions return true. *)
Lemma delete_and_update_absent_title_return_true :
  has_title "Ghost" one_movie = false
  /\ delete_movie None "Ghost" one_movie = (true, one_movie)
  /\ update_movie None "Ghost" 9 one_movie = (true, one_movie)
  /\ ~ (fst (delete_movie None "Ghost" one_movie) = true
        <-> has_title "Ghost" one_movie = true)
  /\ ~ (fst (update_movie None "Ghost" 9 one_movie) = true
        <-> has_title "Ghost" one_movie = true).
Proof.
  repeat split; intros [H _]; specialize (H eq_refl); discriminate H.
Qed.

(** C9: [update_movie] keeps every record in its place with its id, title,
    year and poster; a record of another title is unchanged altogether,
    and when the statement is executed a record of the given title has the
    given rating. *)
Theorem update_movie_changes_only_rating (fault : option string)
  (title : string) (new_rating : Q) (db : DB) (i : nat) (r : Row) :
  nth_error (rows db) i = Some r ->
  List.length (rows (snd (update_movie fault title new_rating db)))
  = List.length (rows db)
  /\ exists r',
       nth_error (rows (snd (update_movie fault title new_rating db))) i = Some r'
       /\ row_id r' = row_id r
       /\ row_title r' = row_title r
       /\ row_year r' = row_year r
       /\ row_poster r' = row_poster r
       /\ (row_title r <> title -> r' = r)
       /\ (row_title r = title -> fault = None -> row_rating r' = new_rating).
Proof.
  intros Hr. unfold update_movie. destruct fault as [detail|]; simpl.
  - split; [reflexivity|]. exists r. repeat split; auto. discriminate.
  - split; [apply length_map|].
    rewrite nth_error_map, Hr. simpl.
    destruct (String.eqb (row_title r) title) eqn:E.
    + eexists. split; [reflexivity|]. simpl. repeat split; auto.
      apply String.eqb_eq in E. congruence.
    + exists r. repeat split; auto.
      apply String.eqb_neq in E. congruence.
Qed.

Lemma update_movie_matrix_rating :
  List.length (rows (snd (update_movie None "Matrix" 9 one_movie)))
  = List.length (rows one_movie)
  /\ exists r',
       nth_error (rows (snd (update_movie None "Matrix" 9 one_movie))) 0 = Some r'
       /\ row_id r' = 1
       /\ row_title r' = "Matrix"
       /\ row_year r' = 1999
       /\ row_poster r' = "url"
       /\ ("Matrix" <> "Matrix" -> r' = mkRow 1 "Matrix" 1999 (87 # 10) "url")
       /\ ("Matrix" = "Matrix" -> @None string = None -> row_rating r' = 9%Q).
Proof.
  apply (update_movie_changes_only_rating None "Matrix" 9 one_movie 0
           (mkRow 1 "Matrix" 1999 (87 # 10) "url")).
  reflexivity.
Defined.

(** * Further properties of the store *)

Lemma dict_mem_false_iff (k : string) (d : Movies) :
  dict_mem k d = false <-> ~ In k (keys d).
Proof.
  unfold dict_mem, keys. induction d as [|[k0 v0] rest IH]; simpl.
  - split; auto.
  - rewrite orb_false_iff, IH. split.
    + intros [E Hn] [-> | Hin]; [|auto]. now rewrite String.eqb_refl in E.
    + intros Hn. split; [|auto].
      apply String.eqb_neq. intros ->. auto.
Qed.

Lemma dict_mem_true_iff (k : string) (d : Movies) :
  dict_mem k d = true <-> In k (keys d).
Proof.
  destruct (dict_mem k d) eqn:E.
  - split; [intros _|reflexivity].
    destruct (in_dec string_dec k (keys d)) as [Hin|Hn]; [assumption|].
    apply dict_mem_false_iff in Hn. congruence.
  - apply dict_mem_false_iff in E. split; [discriminate | contradiction].
Qed.

Lemma dict_set_fresh (k : string) (v : Info) (d : Movies) :
  dict_mem k d = false -> dict_set k v d = d ++ [(k, v)].
Proof.
  unfold dict_mem. induction d as [|[k0 v0] rest IH]; simpl; [reflexivity|].
  rewrite orb_false_iff. intros [E H]. rewrite E. f_equal. now apply IH.
Qed.

Lemma keys_dict_set (k : string) (v : Info) (d : Movies) :
  keys (dict_set k v d) = if dict_mem k d then keys d else keys d ++ [k].
Proof.
  unfold dict_mem, keys. induction d as [|[k0 v0] rest IH]; simpl; [reflexivity|].
  destruct (String.eqb k0 k) eqn:E; simpl; [reflexivity|].
  rewrite IH. now destruct (existsb _ rest).
Qed.

Lemma has_title_iff (title : string) (db : DB) :
  has_title title db = true <-> In title (map row_title (rows db)).
Proof.
  unfold has_title. rewrite existsb_exists, in_map_iff.
  split; intros (r & H1 & H2); exists r.
  - split; [now apply String.eqb_eq | assumption].
  - split; [assumption | now apply String.eqb_eq].
Qed.

Lemma has_title_false_iff (title : string) (db : DB) :
  has_title title db = false <-> ~ In title (map row_title (rows db)).
Proof.
  rewrite <- has_title_iff. destruct (has_title title db); split; congruence.
Qed.

Lemma fold_dict_set_fresh (rs : list Row) : forall acc,
  NoDup (keys acc ++ map row_title rs) ->
  fold_left (fun d row => dict_set (row_title row)
                            (mkInfo (row_year row) (row_rating row)) d) rs acc
  = acc ++ map info_of rs.
Proof.
  induction rs as [|r rs IH]; intros acc Hnd; simpl.
  - now rewrite app_nil_r.
  - assert (Hfresh : dict_mem (row_title r) acc = false).
    { apply dict_mem_false_iff. intros Hin.
      apply NoDup_remove_2 in Hnd. apply Hnd, in_or_app. now left. }
    rewrite (dict_set_fresh _ _ _ Hfresh), IH.
    + rewrite <- app_assoc. reflexivity.
    + unfold keys in *. rewrite map_app, <- app_assoc. exact Hnd.
Qed.

Lemma get_movies_of_unique (db : DB) :
  unique_titles db -> get_movies db = map info_of (rows db).
Proof.
  intros Hu. unfold get_movies. now rewrite fold_dict_set_fresh.
Qed.

(** X1: on a table whose titles are unique, the snapshot of [get_movies]
    has one entry per row, in storage order, and is the data of
    [get_generation_data] without the poster. *)
Theorem get_movies_follows_the_rows (db : DB) :
  unique_titles db ->
  get_movies db = map info_of (rows db)
  /\ List.length (get_movies db) = List.length (rows db)
  /\ map (fun t => match t with (title, y, r, _) => (title, mkInfo y r) end)
         (get_generation_data db)
     = get_movies db.
Proof.
  intros Hu.
  rewrite (get_movies_of_unique db Hu). split; [reflexivity|]. split; [apply length_map|].
  unfold get_generation_data. rewrite map_map. reflexivity.
Qed.

Lemma get_movies_one_movie :
  get_movies one_movie = map info_of (rows one_movie)
  /\ List.length (get_movies one_movie) = List.length (rows one_movie)
  /\ map (fun t => match t with (title, y, r, _) => (title, mkInfo y r) end)
         (get_generation_data one_movie)
     = get_movies one_movie.
Proof.
  apply (get_movies_follows_the_rows one_movie).
  repeat constructor. simpl. tauto.
Defined.

Lemma fold_dict_set_keys (rs : list Row) : forall acc,
  NoDup (keys acc) ->
  NoDup (keys (fold_left (fun d row => dict_set (row_title row)
                            (mkInfo (row_year row) (row_rating row)) d) rs acc)).
Proof.
  induction rs as [|r rs IH]; intros acc Hnd; simpl; [assumption|].
  apply IH. rewrite keys_dict_set.
  destruct (dict_mem (row_title r) acc) eqn:E; [assumption|].
  apply dict_mem_false_iff in E.
  apply NoDup_app; [assumption | repeat constructor; simpl; tauto |].
  intros x Hx [<- | []]. contradiction.
Qed.

(** X2: whatever the table holds, the snapshot of [get_movies] never has
    two entries of the same title, and its titles are exactly the titles
    of the table. *)
Theorem get_movies_titles_are_distinct (db : DB) :
  NoDup (keys (get_movies db))
  /\ forall title, In title (keys (get_movies db))
                   <-> In title (map row_title (rows db)).
Proof.
  split.
  - unfold get_movies. apply fold_dict_set_keys. constructor.
  - intros title.
    now rewrite <- dict_mem_true_iff, dict_mem_get_movies, has_title_iff.
Qed.

(** Dropping rows leaves the remaining titles distinct. *)
Lemma titles_stay_distinct (keep : Row -> bool) (rs : list Row) :
  NoDup (map row_title rs) -> NoDup (map row_title (filter keep rs)).
Proof.
  induction rs as [|r rs IH]; intros Hnd; [exact Hnd|].
  apply NoDup_cons_iff in Hnd as [Hfresh Hnd]. simpl.
  destruct (keep r); [|now apply IH].
  simpl. apply NoDup_cons; [|now apply IH].
  intros Hin. apply Hfresh.
  apply in_map_iff in Hin as (x & <- & Hx).
  apply filter_In in Hx as [Hx _]. now apply in_map.
Qed.

Lemma sql_update_titles (title : string) (new_rating : Q) (db : DB) :
  map row_title (rows (sql_update title new_rating db)) = map row_title (rows db).
Proof.
  unfold sql_update. simpl. rewrite map_map. apply map_ext.
  intros r. now destruct (String.eqb (row_title r) title).
Qed.

(** What [add_movie] has done when it returns the added outcome. *)
Lemma add_movie_added (omdb : string -> Http) (fault : option string)
  (title : string) (db db' : DB) (T : string) (Y : Z) (R : Q) (P : string) :
  add_movie omdb fault title db = (Return (Added T Y R P), db') ->
  omdb title = Response 200 (Some (OmdbMovie T Y R P))
  /\ fault = None
  /\ has_title T db = false
  /\ db' = mkDB (rows db ++ [mkRow (last_id db + 1) T Y R P]) (last_id db + 1).
Proof.
  unfold add_movie.
  destruct (omdb title) as [detail|status_code [parsed|]]; try discriminate.
  destruct (Z.eqb status_code 200) eqn:Es; simpl; [|discriminate].
  apply Z.eqb_eq in Es. subst status_code.
  destruct parsed as [|T0 Y0 R0 P0]; [discriminate|].
  rewrite dict_mem_get_movies. unfold sql_insert.
  destruct (has_title T0 db) eqn:E; [discriminate|].
  destruct fault; [discriminate|].
  intros H. injection H as -> -> -> -> <-. auto.
Qed.

(** Whatever else [add_movie] returns or raises, the database is as
    before. *)
Lemma add_movie_not_added (omdb : string -> Http) (fault : option string)
  (title : string) (db : DB) :
  (exists T Y R P, fst (add_movie omdb fault title db) = Return (Added T Y R P))
  \/ snd (add_movie omdb fault title db) = db.
Proof.
  unfold add_movie.
  destruct (omdb title) as [detail|status_code [parsed|]]; auto.
  destruct (negb (Z.eqb status_code 200)); auto.
  destruct parsed as [|T Y R P]; auto.
  destruct (dict_mem T (get_movies db)); auto.
  destruct (sql_insert fault T Y R P db); simpl; eauto 6.
Qed.

Lemma add_movie_keeps_unique (omdb : string -> Http) (fault : option string)
  (title : string) (db : DB) :
  unique_titles db -> unique_titles (snd (add_movie omdb fault title db)).
Proof.
  intros Hu.
  destruct (add_movie omdb fault title db) as [res db'] eqn:Hadd.
  destruct (add_movie_not_added omdb fault title db) as [(T & Y & R & P & H) | H];
    rewrite Hadd in H; simpl in H; [|now subst db'].
  subst res. apply add_movie_added in Hadd as (_ & _ & Hfresh & ->).
  unfold unique_titles. simpl. rewrite map_app. simpl.
  apply has_title_false_iff in Hfresh.
  apply NoDup_app; [assumption | repeat constructor; simpl; tauto |].
  intros x Hx [<- | []]. contradiction.
Qed.

(** X3: the three writing functions keep the titles of the table unique,
    whatever the provider answers and whether or not the storage fails. *)
Theorem store_keeps_titles_unique (omdb : string -> Http) (fault : option string)
  (title : string) (new_rating : Q) (db : DB) :
  unique_titles db ->
  unique_titles (snd (add_movie omdb fault title db))
  /\ unique_titles (snd (delete_movie fault title db))
  /\ unique_titles (snd (update_movie fault title new_rating db)).
Proof.
  intros Hu. split; [|split].
  - now apply add_movie_keeps_unique.
  - unfold delete_movie. destruct fault; [assumption|].
    unfold unique_titles, sql_delete. simpl. now apply titles_stay_distinct.
  - unfold update_movie. destruct fault; [assumption|]. simpl.
    unfold unique_titles. now rewrite sql_update_titles.
Qed.

Lemma store_keeps_one_movie_unique :
  unique_titles (snd (add_movie matrix_provider None "matrix" one_movie))
  /\ unique_titles (snd (delete_movie None "matrix" one_movie))
  /\ unique_titles (snd (update_movie None "matrix" 9 one_movie)).
Proof.
  apply (store_keeps_titles_unique matrix_provider None "matrix" 9 one_movie).
  repeat constructor. simpl. tauto.
Defined.

(** X4: two calls of [add_movie] whose titles the provider resolves to the
    same canonical title, on a database that does not hold it and with a
    working storage: the first returns the added outcome, the second the
    duplicate outcome and writes nothing, and the table holds exactly one
    record of that title. *)
Theorem add_movie_twice_adds_once (omdb : string -> Http) (t1 t2 : string)
  (db : DB) (T : string) (Y Y' : Z) (R R' : Q) (P P' : string) :
  omdb t1 = Response 200 (Some (OmdbMovie T Y R P)) ->
  omdb t2 = Response 200 (Some (OmdbMovie T Y' R' P')) ->
  has_title T db = false ->
  let first := add_movie omdb None t1 db in
  let second := add_movie omdb None t2 (snd first) in
  fst first = Return (Added T Y R P)
  /\ fst second = Return (Duplicate T)
  /\ snd second = snd first
  /\ List.length (filter (fun r => String.eqb (row_title r) T) (rows (snd second)))
     = 1%nat.
Proof.
  intros H1 H2 Hfresh first second. subst first second.
  rewrite (add_movie_on_answer _ _ _ _ _ _ H1). simpl. rewrite Hfresh. simpl.
  rewrite (add_movie_on_answer _ _ _ _ _ _ H2). simpl.
  assert (Hnow : has_title T
            (mkDB (rows db ++ [mkRow (last_id db + 1) T Y R P]) (last_id db + 1)) = true).
  { unfold has_title. simpl. rewrite existsb_app. simpl.
    now rewrite String.eqb_refl, orb_true_r. }
  rewrite Hnow. simpl. repeat split.
  rewrite filter_app, length_app. simpl. rewrite String.eqb_refl. simpl.
  assert (Hnone : filter (fun r => String.eqb (row_title r) T) (rows db) = []).
  { unfold has_title in Hfresh. clear Hnow.
    induction (rows db) as [|r rs IH]; [reflexivity|].
    simpl in *. apply orb_false_iff in Hfresh as [E Hrest]. rewrite E. auto. }
  rewrite Hnone. reflexivity.
Qed.

Lemma add_movie_twice_matrix :
  let first := add_movie matrix_provider None "matrix" empty_db in
  let second := add_movie matrix_provider None "The Matrix" (snd first) in
  fst first = Return (Added "The Matrix" 1999 (87 # 10) "url")
  /\ fst second = Return (Duplicate "The Matrix")
  /\ snd second = snd first
  /\ List.length (filter (fun r => String.eqb (row_title r) "The Matrix")
                         (rows (snd second)))
     = 1%nat.
Proof.
  apply (add_movie_twice_adds_once matrix_provider "matrix" "The Matrix" empty_db
           "The Matrix" 1999 1999 (87 # 10) (87 # 10) "url" "url");
    reflexivity.
Defined.

Lemma dict_get_app_fresh (d : Movies) (k : string) (v : Info) :
  dict_mem k d = false -> dict_get (d ++ [(k, v)]) k = Return v.
Proof.
  unfold dict_mem. induction d as [|[k0 v0] rest IH]; simpl.
  - now rewrite String.eqb_refl.
  - rewrite orb_false_iff. intros [E H]. rewrite E. now apply IH.
Qed.

Lemma filter_other_titles (title : string) (rs : list Row) :
  existsb (fun r => String.eqb (row_title r) title) rs = false ->
  filter (fun r => negb (String.eqb (row_title r) title)) rs = rs.
Proof.
  induction rs as [|r rs IH]; simpl; [reflexivity|].
  rewrite orb_false_iff. intros [E H]. rewrite E. simpl. f_equal. now apply IH.
Qed.

(** X5: round trip.  After [add_movie] has returned the added outcome for
    the canonical title [T] on a table of unique titles, the table is the
    old one followed by one row of that title; the snapshot is the old one
    followed by that title with the year and rating of the new row,
    looking the title up gives that entry, and deleting the title gives
    the old rows and the old snapshot again. *)
Theorem add_then_read_then_delete (omdb : string -> Http) (fault : option string)
  (title : string) (db db' : DB) (T : string) (Y : Z) (R : Q) (P : string) :
  unique_titles db ->
  add_movie omdb fault title db = (Return (Added T Y R P), db') ->
  exists row,
    rows db' = rows db ++ [row]
    /\ row_title row = T
    /\ get_movies db' = get_movies db ++ [info_of row]
    /\ dict_get (get_movies db') T = Return (snd (info_of row))
    /\ delete_movie None T db' = (true, mkDB (rows db) (last_id db'))
    /\ get_movies (snd (delete_movie None T db')) = get_movies db.
Proof.
  intros Hu Hadd.
  pose proof (add_movie_keeps_unique omdb fault title db Hu) as Hu'.
  rewrite Hadd in Hu'. simpl in Hu'.
  apply add_movie_added in Hadd as (_ & _ & Hfresh & ->).
  pose proof (get_movies_of_unique _ Hu) as Hsnap.
  pose proof (get_movies_of_unique _ Hu') as Hsnap'.
  exists (mkRow (last_id db + 1) T Y R P).
  assert (Hnew : get_movies
            (mkDB (rows db ++ [mkRow (last_id db + 1) T Y R P]) (last_id db + 1))
          = get_movies db ++ [info_of (mkRow (last_id db + 1) T Y R P)]).
  { rewrite Hsnap', Hsnap. simpl. now rewrite map_app. }
  assert (Hdel : sql_delete T
            (mkDB (rows db ++ [mkRow (last_id db + 1) T Y R P]) (last_id db + 1))
          = mkDB (rows db) (last_id db + 1)).
  { unfold sql_delete. simpl. rewrite filter_app. simpl.
    rewrite String.eqb_refl. simpl.
    rewrite (filter_other_titles T (rows db) Hfresh). now rewrite app_nil_r. }
  split; [reflexivity|]. split; [reflexivity|]. split; [exact Hnew|].
  split; [|split].
  - rewrite Hnew. apply dict_get_app_fresh. now rewrite dict_mem_get_movies.
  - unfold delete_movie. now rewrite Hdel.
  - unfold delete_movie. simpl. rewrite Hdel. reflexivity.
Qed.

Lemma add_then_read_then_delete_matrix :
  let db' := mkDB [mkRow 1 "The Matrix" 1999 (87 # 10) "url"] 1 in
  exists row,
    rows db' = rows empty_db ++ [row]
    /\ row_title row = "The Matrix"
    /\ get_movies db' = get_movies empty_db ++ [info_of row]
    /\ dict_get (get_movies db') "The Matrix" = Return (snd (info_of row))
    /\ delete_movie None "The Matrix" db' = (true, mkDB (rows empty_db) (last_id db'))
    /\ get_movies (snd (delete_movie None "The Matrix" db')) = get_movies empty_db.
Proof.
  apply (add_then_read_then_delete matrix_provider None "matrix" empty_db
           (mkDB [mkRow 1 "The Matrix" 1999 (87 # 10) "url"] 1)
           "The Matrix" 1999 (87 # 10) "url").
  - constructor.
  - reflexivity.
Defined.

(** X6: [add_movie] never alters or removes a record: either it returns
    the added outcome and the table is the old one followed by one new
    row, or it returns or raises anything else and the database is as
    before. *)
Theorem add_movie_only_appends (omdb : string -> Http) (fault : option string)
  (title : string) (db : DB) :
  (exists T Y R P,
      fst (add_movie omdb fault title db) = Return (Added T Y R P)
      /\ rows (snd (add_movie omdb fault title db))
         = rows db ++ [mkRow (last_id db + 1) T Y R P])
  \/ ((forall T Y R P, fst (add_movie omdb fault title db) <> Return (Added T Y R P))
      /\ snd (add_movie omdb fault title db) = db).
Proof.
  destruct (add_movie omdb fault title db) as [res db'] eqn:Hadd. simpl.
  destruct res as [[T Y R P| | | |]|e].
  - left. exists T, Y, R, P. split; [reflexivity|].
    apply add_movie_added in Hadd as (_ & _ & _ & ->). reflexivity.
  - right. split; [discriminate|].
    destruct (add_movie_not_added omdb fault title db) as [(T & Y & R & P & H) | H];
      rewrite Hadd in H; simpl in H; [discriminate | assumption].
  - right. split; [discriminate|].
    destruct (add_movie_not_added omdb fault title db) as [(T & Y & R & P & H) | H];
      rewrite Hadd in H; simpl in H; [discriminate | assumption].
  - right. split; [discriminate|].
    destruct (add_movie_not_added omdb fault title db) as [(T & Y & R & P & H) | H];
      rewrite Hadd in H; simpl in H; [discriminate | assumption].
  - right. split; [discriminate|].
    destruct (add_movie_not_added omdb fault title db) as [(T & Y & R & P & H) | H];
      rewrite Hadd in H; simpl in H; [discriminate | assumption].
  - right. split; [discriminate|].
    destruct (add_movie_not_added omdb fault title db) as [(T & Y & R & P & H) | H];
      rewrite Hadd in H; simpl in H; [discriminate | assumption].
Qed.

(** X7: [add_movie] returns its database-error outcome only when the
    storage itself failed during the INSERT, with that failure as the
    detail: as the duplicate check comes first, the UNIQUE constraint is
    never what makes the INSERT fail. *)
Theorem add_movie_database_error_is_a_storage_failure (omdb : string -> Http)
  (fault : option string) (title : string) (db : DB) (error : string) :
  fst (add_movie omdb fault title db) = Return (DatabaseError error) ->
  fault = Some error /\ snd (add_movie omdb fault title db) = db.
Proof.
  unfold add_movie.
  destruct (omdb title) as [detail|status_code [parsed|]]; try discriminate.
  destruct (negb (Z.eqb status_code 200)); [discriminate|].
  destruct parsed as [|T Y R P]; [discriminate|].
  rewrite dict_mem_get_movies. unfold sql_insert.
  destruct (has_title T db) eqn:E; [discriminate|].
  destruct fault as [detail|]; simpl; [|discriminate].
  intros H. injection H as ->. auto.
Qed.

Lemma add_movie_locked_database :
  Some "database is locked" = Some "database is locked"
  /\ snd (add_movie matrix_provider (Some "database is locked") "matrix" empty_db)
     = empty_db.
Proof.
  apply (add_movie_database_error_is_a_storage_failure matrix_provider
           (Some "database is locked") "matrix" empty_db "database is locked").
  reflexivity.
Defined.

(** X8: how the two statements compose: deleting twice is deleting once,
    of two updates of a title the later rating stands, updating a deleted
    title changes nothing, and a delete and an update give the same
    database in either order. *)
Theorem delete_and_update_compose (t u : string) (r1 r2 : Q) (db : DB) :
  snd (delete_movie None t (snd (delete_movie None t db)))
  = snd (delete_movie None t db)
  /\ snd (update_movie None t r2 (snd (update_movie None t r1 db)))
     = snd (update_movie None t r2 db)
  /\ snd (update_movie None t r1 (snd (delete_movie None t db)))
     = snd (delete_movie None t db)
  /\ snd (delete_movie None t (snd (update_movie None u r1 db)))
     = snd (update_movie None u r1 (snd (delete_movie None t db))).
Proof.
  destruct db as [rs n].
  unfold delete_movie, update_movie, sql_delete, sql_update. simpl.
  repeat split; f_equal.
  - induction rs as [|r rs IH]; simpl; [reflexivity|].
    destruct (String.eqb (row_title r) t) eqn:E; simpl; [assumption|].
    rewrite E. simpl. now f_equal.
  - rewrite map_map. apply map_ext. intros r.
    destruct (String.eqb (row_title r) t) eqn:E; simpl; now rewrite E.
  - induction rs as [|r rs IH]; simpl; [reflexivity|].
    destruct (String.eqb (row_title r) t) eqn:E; simpl; [assumption|].
    rewrite E. now f_equal.
  - induction rs as [|r rs IH]; simpl; [reflexivity|].
    destruct (String.eqb (row_title r) u) eqn:Eu; simpl;
      destruct (String.eqb (row_title r) t) eqn:Et; simpl;
      rewrite ?Eu; try assumption; now f_equal.
Qed.

(** * Further properties of the menu functions *)

Lemma dict_get_present (d : Movies) (k : string) :
  dict_mem k d = true -> exists v, dict_get d k = Return v.
Proof.
  unfold dict_mem. induction d as [|[k0 v0] rest IH]; simpl; [discriminate|].
  destruct (String.eqb k0 k); simpl; eauto.
Qed.

Lemma dict_get_missing (d : Movies) (k : string) :
  dict_mem k d = false -> dict_get d k = Raise (KeyError k).
Proof.
  unfold dict_mem. induction d as [|[k0 v0] rest IH]; simpl; [reflexivity|].
  destruct (String.eqb k0 k); simpl; [discriminate | assumption].
Qed.

Lemma get_movies_empty_iff (db : DB) : get_movies db = [] <-> rows db = [].
Proof.
  split; intros H.
  - destruct (rows db) as [|r rs] eqn:E; [reflexivity|].
    assert (Hmem : dict_mem (row_title r) (get_movies db) = true).
    { rewrite dict_mem_get_movies. unfold has_title. rewrite E. simpl.
      now rewrite String.eqb_refl. }
    rewrite H in Hmem. discriminate.
  - unfold get_movies. now rewrite H.
Qed.

(** Writing back the rating that the snapshot holds for a title changes no
    row, when the titles are unique. *)
Lemma update_with_own_rating (title : string) (infos : Info) (rs : list Row) :
  NoDup (map row_title rs) ->
  dict_get (map info_of rs) title = Return infos ->
  map (fun r => if String.eqb (row_title r) title
                then mkRow (row_id r) (row_title r) (row_year r) (rating infos)
                           (row_poster r)
                else r) rs = rs.
Proof.
  induction rs as [|r rs IH]; simpl; [reflexivity|].
  intros Hnd Hget. apply NoDup_cons_iff in Hnd as [Hfresh Hnd].
  destruct (String.eqb (row_title r) title) eqn:E.
  - injection Hget as <-. simpl. apply String.eqb_eq in E. subst title.
    f_equal; [now destruct r|].
    clear IH Hnd. induction rs as [|r' rs IH]; simpl; [reflexivity|].
    simpl in Hfresh.
    destruct (String.eqb (row_title r') (row_title r)) eqn:E'.
    + apply String.eqb_eq in E'. exfalso. apply Hfresh. now left.
    + f_equal. apply IH. intros Hin. apply Hfresh. now right.
  - f_equal. now apply IH.
Qed.

(** X9: the update menu never changes the database: it writes back the
    rating it has just read from the snapshot, so on a table of unique
    titles the database after [update_movie_from_dict] is the database
    before it, whatever the user types and whether or not the storage
    fails. *)
Theorem update_movie_from_dict_changes_nothing (inputs : list string)
  (fault : option string) (db : DB) :
  unique_titles db ->
  snd (update_movie_from_dict inputs fault db) = db.
Proof.
  intros Hu. unfold update_movie_from_dict.
  destruct inputs as [|title later]; [reflexivity|].
  destruct (String.eqb title "b"); [reflexivity|].
  destruct (dict_get (get_movies db) title) as [infos|e] eqn:Hget; [|reflexivity].
  destruct (dict_mem title (get_movies db)).
  - unfold update_movie. destruct fault; [reflexivity|]. simpl.
    rewrite (get_movies_of_unique db Hu) in Hget. destruct db as [rs n]. unfold sql_update. simpl in *.
    f_equal. now apply update_with_own_rating.
  - now destruct (get_movies db).
Qed.

Lemma update_movie_from_dict_one_movie :
  snd (update_movie_from_dict ["Matrix"] None one_movie) = one_movie.
Proof.
  apply (update_movie_from_dict_changes_nothing ["Matrix"] None one_movie).
  repeat constructor. simpl. tauto.
Defined.

(** X10: what the update menu answers.  It reads [movies[title]] before it
    tests [title in movies], so a title that is not in the catalog, typed
    into an empty catalog or not, is answered with the unexpected-error
    line of the [KeyError]; the branches for an empty database and for a
    movie that does not exist are never taken. *)
Theorem update_movie_from_dict_answers (title : string) (later : list string)
  (fault : option string) (db : DB) :
  title <> "b" ->
  fst (update_movie_from_dict (title :: later) fault db)
  = if has_title title db
    then Some [UpdatedNotice title]
    else Some [UnexpectedNotice (KeyError title)].
Proof.
  intros Hb. unfold update_movie_from_dict.
  apply String.eqb_neq in Hb. rewrite Hb.
  rewrite <- dict_mem_get_movies.
  destruct (dict_mem title (get_movies db)) eqn:E.
  - destruct (dict_get_present _ _ E) as [v Hv]. rewrite Hv. reflexivity.
  - rewrite (dict_get_missing _ _ E). reflexivity.
Qed.

Lemma update_movie_from_dict_ghost :
  fst (update_movie_from_dict ["Ghost"] None empty_db)
  = if has_title "Ghost" empty_db
    then Some [UpdatedNotice "Ghost"]
    else Some [UnexpectedNotice (KeyError "Ghost")].
Proof.
  apply (update_movie_from_dict_answers "Ghost" [] None empty_db). discriminate.
Defined.

(** X11: the delete menu does not look at what [delete_movie] returns:
    when the storage fails during the DELETE, the record is still in the
    database and the menu reports that it was deleted successfully. *)
Theorem remove_movie_from_dict_reports_failed_delete (title : string)
  (later : list string) (detail : string) (db : DB) :
  title <> "b" ->
  has_title title db = true ->
  remove_movie_from_dict (title :: later) (Some detail) db
  = (Some [DeletedNotice title], db)
  /\ fst (delete_movie (Some detail) title db) = false.
Proof.
  intros Hb Hin. unfold remove_movie_from_dict.
  apply String.eqb_neq in Hb. rewrite Hb, dict_mem_get_movies, Hin.
  split; reflexivity.
Qed.

Lemma remove_movie_from_dict_locked :
  remove_movie_from_dict ["Matrix"] (Some "database is locked") one_movie
  = (Some [DeletedNotice "Matrix"], one_movie)
  /\ fst (delete_movie (Some "database is locked") "Matrix" one_movie) = false.
Proof.
  apply (remove_movie_from_dict_reports_failed_delete "Matrix" []
           "database is locked" one_movie).
  - discriminate.
  - reflexivity.
Defined.

(** X12: what the delete menu does with a working storage, for a title
    other than b: a catalogued title is deleted and reported so, after
    which no record has it; any other title leaves the database as it was
    and is answered with the empty-database message when the table is
    empty and with the does-not-exist message otherwise. *)
Theorem remove_movie_from_dict_answers (title : string) (later : list string)
  (db : DB) :
  title <> "b" ->
  remove_movie_from_dict (title :: later) None db
  = if has_title title db
    then (Some [DeletedNotice title], sql_delete title db)
    else match rows db with
         | [] => (Some [FixedNotice EMPTY_DB], db)
         | _ :: _ => (Some [MovieDontExist], db)
         end.
Proof.
  intros Hb. unfold remove_movie_from_dict.
  apply String.eqb_neq in Hb. rewrite Hb, dict_mem_get_movies.
  destruct (has_title title db); [reflexivity|].
  destruct (get_movies db) as [|m ms] eqn:Hm.
  - apply get_movies_empty_iff in Hm. now rewrite Hm.
  - destruct (rows db) as [|r rs] eqn:Hr; [|reflexivity].
    apply get_movies_empty_iff in Hr. congruence.
Qed.

Lemma remove_movie_from_dict_matrix :
  remove_movie_from_dict ["Matrix"] None one_movie
  = if has_title "Matrix" one_movie
    then (Some [DeletedNotice "Matrix"], sql_delete "Matrix" one_movie)
    else match rows one_movie with
         | [] => (Some [FixedNotice EMPTY_DB], one_movie)
         | _ :: _ => (Some [MovieDontExist], one_movie)
         end.
Proof.
  apply (remove_movie_from_dict_answers "Matrix" [] one_movie). discriminate.
Defined.

(** X13: the add menu gives its OMDb-connection message exactly when the
    provider answered with a JSON body and a status other than 200; a
    request that fails in transport is answered with the unexpected-error
    line of the exception, and the database is as before. *)
Theorem add_movie_to_dict_connection_message (title : string)
  (later : list string) (omdb : string -> Http) (fault : option string) (db : DB) :
  title <> "b" ->
  (fst (add_movie_to_dict (title :: later) omdb fault db) = Some [ApiConnectionNotice]
   <-> exists status_code parsed,
         omdb title = Response status_code (Some parsed) /\ status_code <> 200)
  /\ forall detail,
       omdb title = GetRaises detail ->
       add_movie_to_dict (title :: later) omdb fault db
       = (Some [UnexpectedNotice (ConnectionError detail)], db).
Proof.
  intros Hb. apply String.eqb_neq in Hb.
  unfold add_movie_to_dict, add_movie. rewrite Hb. split.
  - destruct (omdb title) as [detail|status_code [parsed|]]; simpl.
    + split; [discriminate | intros (s & p & H & _); discriminate].
    + destruct (Z.eqb status_code 200) eqn:Es; simpl.
      * apply Z.eqb_eq in Es. split.
        -- destruct parsed as [|T Y R P]; simpl; [discriminate|].
           destruct (dict_mem T (get_movies db)); simpl; [discriminate|].
           destruct (sql_insert fault T Y R P db); discriminate.
        -- intros (s & p & H & Hs). injection H as <- _. contradiction.
      * apply Z.eqb_neq in Es. split; [|reflexivity].
        intros _. now exists status_code, parsed.
    + split; [discriminate | intros (s & p & H & _); discriminate].
  - intros detail Hfail. now rewrite Hfail.
Qed.

Lemma add_movie_to_dict_unreachable_provider :
  (fst (add_movie_to_dict ["Matrix"] (fun _ => GetRaises "Connection refused")
          None one_movie) = Some [ApiConnectionNotice]
   <-> exists status_code parsed,
         GetRaises "Connection refused" = Response status_code (Some parsed)
         /\ status_code <> 200)
  /\ forall detail,
       GetRaises "Connection refused" = GetRaises detail ->
       add_movie_to_dict ["Matrix"] (fun _ => GetRaises "Connection refused")
         None one_movie
       = (Some [UnexpectedNotice (ConnectionError detail)], one_movie).
Proof.
  apply (add_movie_to_dict_connection_message "Matrix" []
           (fun _ => GetRaises "Connection refused") None one_movie).
  discriminate.
Defined.

(** X14: on a table of unique titles, [list_up_movies] returns one line per
    record, in storage order, with the title, year and rating of the
    record, and the single empty-database message when the table is
    empty; it never returns an empty list. *)
Theorem list_up_movies_lists_the_rows (db : DB) :
  unique_titles db ->
  list_up_movies db
  = match rows db with
    | [] => [FixedNotice EMPTY_DB]
    | _ :: _ => map (fun r => ListedNotice (row_title r) (row_year r) (row_rating r))
                    (rows db)
    end
  /\ list_up_movies db <> [].
Proof.
  intros Hu. unfold list_up_movies.
  rewrite (get_movies_of_unique db Hu), map_map. destruct (rows db); simpl; split; (reflexivity || discriminate).
Qed.

Lemma list_up_movies_one_movie :
  list_up_movies one_movie
  = match rows one_movie with
    | [] => [FixedNotice EMPTY_DB]
    | _ :: _ => map (fun r => ListedNotice (row_title r) (row_year r) (row_rating r))
                    (rows one_movie)
    end
  /\ list_up_movies one_movie <> [].
Proof.
  apply (list_up_movies_lists_the_rows one_movie).
  repeat constructor. simpl. tauto.
Defined.

(** * Further properties of the manual sorts *)

Section SelectionResults.
Variable K : Type.
Variable key : Entry -> K.
Variable gtb : K -> K -> bool.
Variable zero : K.

Hypothesis gtb_trans :
  forall a b c, gtb a b = true -> gtb b c = true -> gtb a c = true.
Hypothesis ngt_trans :
  forall a b c, gtb a b = false -> gtb b c = false -> gtb a c = false.
Hypothesis eqb_key :
  forall x y, Entry_eqb x y = true -> gtb (key y) (key x) = false.

(** Whenever the loop returns, it returns a list, never the [ValueError]
    of [remove]: what it has appended to [sorted_lst] is a permutation of
    the list it was given. *)
Lemma selection_loop_result fuel : forall rating_lst sorted_lst r,
  selection_loop K key gtb zero fuel rating_lst sorted_lst = Some r ->
  exists out, r = Return (sorted_lst ++ out) /\ Permutation rating_lst out.
Proof.
  induction fuel as [|fuel IH]; intros rating_lst sorted_lst r Hrun.
  - destruct rating_lst; [|discriminate].
    injection Hrun as <-. exists []. now rewrite app_nil_r.
  - destruct rating_lst as [|m rest].
    { injection Hrun as <-. exists []. now rewrite app_nil_r. }
    cbn [selection_loop] in Hrun.
    destruct (scan_first_greatest K key gtb gtb_trans ngt_trans (m :: rest) zero None)
      as [[_ Hs] | (l1 & b & l2 & Heq & Hs & Hb & H1 & H2)].
    + rewrite Hs in Hrun. now apply IH.
    + rewrite Hs, Heq, (list_remove_middle K key gtb eqb_key _ _ _ H1) in Hrun.
      apply IH in Hrun as (out & -> & Hperm).
      exists (b :: out). rewrite <- app_assoc. split; [reflexivity|].
      rewrite Heq. apply Permutation_sym, Permutation_cons_app, Permutation_sym, Hperm.
Qed.
End SelectionResults.

Lemma rating_loop_result (fuel : nat) (rating_lst : list Entry) (r : Res (list Entry)) :
  selection_loop Q e_rating Qgtb 0%Q fuel rating_lst [] = Some r ->
  exists out, r = Return out /\ Permutation rating_lst out.
Proof.
  intros Hrun. apply selection_loop_result in Hrun; [exact Hrun|..].
  - intros a b c. rewrite !Qgtb_true. intros; now apply Qlt_trans with b.
  - intros a b c. rewrite !Qgtb_false. intros; now apply Qle_trans with b.
  - intros x y E. apply Entry_eqb_fields in E as (_ & _ & E).
    apply Qgtb_false. rewrite E. apply Qle_refl.
Qed.

Lemma year_loop_result (fuel : nat) (year_lst : list Entry) (r : Res (list Entry)) :
  selection_loop Z e_year Zgtb 0 fuel year_lst [] = Some r ->
  exists out, r = Return out /\ Permutation year_lst out.
Proof.
  intros Hrun. apply selection_loop_result in Hrun; [exact Hrun|..].
  - intros a b c. rewrite !Zgtb_true. lia.
  - intros a b c. rewrite !Zgtb_false. lia.
  - intros x y E. apply Entry_eqb_fields in E as (_ & E & _).
    apply Zgtb_false. lia.
Qed.

Lemma positive_or_not {A : Type} (P N : A -> Prop) (l : list A) :
  (forall a, P a \/ N a) -> Forall P l \/ Exists N l.
Proof.
  intros H. induction l as [|a l [IH|IH]]; auto.
  destruct (H a); auto.
Qed.

Lemma choose_direction_skips (junk rest : list string) (sorted_lst : list Entry) :
  Forall (fun user_input => is_choice user_input = false) junk ->
  choose_direction (junk ++ rest) sorted_lst = choose_direction rest sorted_lst.
Proof.
  induction 1 as [|x junk Hx _ IH]; simpl; [reflexivity|].
  unfold is_choice in Hx. rewrite !orb_false_iff in Hx.
  destruct Hx as [[-> ->] ->]. exact IH.
Qed.

(** X18: the choice of direction.  Lines that are none of b, old and young
    are skipped; on a non-empty snapshot of positive years, with a round
    of the loop per entry, the choice b gives an empty list, and when the
    input ends before a valid choice the function answers with the
    unexpected-error line of the [EOFError]. *)
Theorem sort_movies_by_year_choice (movies : Movies) (fuel : nat)
  (junk rest : list string) :
  Forall (fun user_input => is_choice user_input = false) junk ->
  movies <> [] ->
  Forall (fun m => 0 < year (snd m)) movies ->
  (List.length movies <= fuel)%nat ->
  sort_movies_by_year fuel (junk ++ rest) movies = sort_movies_by_year fuel rest movies
  /\ sort_movies_by_year fuel (junk ++ "b" :: rest) movies = Some []
  /\ sort_movies_by_year fuel junk movies = Some [UnexpectedLine EOFError].
Proof.
  intros Hjunk Hne Hpos Hlen.
  destruct (year_loop_sorts fuel (entries movies)) as (out & Hrun & _).
  - unfold entries. apply Forall_map. exact Hpos.
  - unfold entries. now rewrite length_map.
  - unfold sort_movies_by_year. destruct movies; [congruence|].
    rewrite Hrun, !choose_direction_skips by assumption.
    split; [reflexivity|]. split; [reflexivity|].
    rewrite <- (app_nil_r junk), choose_direction_skips by assumption.
    reflexivity.
Qed.

Lemma sort_movies_by_year_choice_scenario :
  sort_movies_by_year 3 (["x"; "new"] ++ ["old"]) scenario
  = sort_movies_by_year 3 ["old"] scenario
  /\ sort_movies_by_year 3 (["x"; "new"] ++ "b" :: ["old"]) scenario = Some []
  /\ sort_movies_by_year 3 ["x"; "new"] scenario = Some [UnexpectedLine EOFError].
Proof.
  apply (sort_movies_by_year_choice scenario 3 ["x"; "new"] ["old"]).
  - repeat constructor.
  - discriminate.
  - repeat constructor.
  - simpl. lia.
Defined.

Lemma descending_front (hi : Q) (out : list Entry) :
  StronglySorted (fun a b => (e_rating b <= e_rating a)%Q) out ->
  Forall (fun e => (e_rating e <= hi)%Q) out ->
  out = of_rating hi out
        ++ filter (fun e => negb (Qeq_bool (e_rating e) hi)) out.
Proof.
  induction 1 as [|a out Hs IH Hall]; intros Hhi; [reflexivity|].
  inversion Hhi as [|? ? Ha Hrest]; subst. unfold of_rating in *. simpl.
  destruct (Qeq_bool (e_rating a) hi) eqn:E; simpl.
  - f_equal. now apply IH.
  - assert (Hlt : (e_rating a < hi)%Q).
    { apply Qle_lteq in Ha as [Hlt | Heq]; [assumption|].
      apply Qeq_bool_iff in Heq. congruence. }
    assert (Hnone : forall l, Forall (fun b => (e_rating b <= e_rating a)%Q) l ->
              filter (fun e => Qeq_bool (e_rating e) hi) l = []
              /\ filter (fun e => negb (Qeq_bool (e_rating e) hi)) l = l).
    { induction 1 as [|b l Hb _ IHl]; simpl; [auto|].
      destruct (Qeq_bool (e_rating b) hi) eqn:Eb.
      - apply Qeq_bool_iff in Eb. rewrite Eb in Hb.
        exfalso. eapply Qlt_not_le; eassumption.
      - simpl. destruct IHl as [-> ->]. auto. }
    destruct (Hnone out Hall) as [-> ->]. reflexivity.
Qed.

Lemma descending_back (lo : Q) (out : list Entry) :
  StronglySorted (fun a b => (e_rating b <= e_rating a)%Q) out ->
  Forall (fun e => (lo <= e_rating e)%Q) out ->
  out = filter (fun e => negb (Qeq_bool (e_rating e) lo)) out
        ++ of_rating lo out.
Proof.
  induction 1 as [|a out Hs IH Hall]; intros Hlo; [reflexivity|].
  inversion Hlo as [|? ? Ha Hrest]; subst. unfold of_rating in *. simpl.
  destruct (Qeq_bool (e_rating a) lo) eqn:E; simpl.
  - apply Qeq_bool_iff in E.
    assert (Hall_lo : forall l,
              Forall (fun b => (e_rating b <= e_rating a)%Q) l ->
              Forall (fun e => (lo <= e_rating e)%Q) l ->
              filter (fun e => negb (Qeq_bool (e_rating e) lo)) l = []
              /\ filter (fun e => Qeq_bool (e_rating e) lo) l = l).
    { induction 1 as [|b l Hb _ IHl]; intros Hl; simpl; [auto|].
      inversion Hl as [|? ? Hb' Hl']; subst.
      assert (Eb : Qeq_bool (e_rating b) lo = true).
      { apply Qeq_bool_iff, Qle_antisym; [|assumption]. now rewrite <- E. }
      rewrite Eb. simpl. destruct (IHl Hl') as [-> ->]. auto. }
    destruct (Hall_lo out Hall Hrest) as [-> ->]. reflexivity.
  - f_equal. now apply IH.
Qed.

Lemma ratings_of_entries (movies : Movies) :
  ratings movies = map e_rating (entries movies).
Proof. unfold ratings, entries. now rewrite map_map. Qed.

(** X19: the sorted list and the statistics agree.  On a non-empty snapshot
    of positive ratings, what [sort_movies_by_rating] returns begins with
    the movies of [return_best_movie] and ends with the movies of
    [return_worst_movie], each group in the order the statistics give. *)
Theorem sort_movies_by_rating_best_first_worst_last (movies : Movies) (fuel : nat) :
  movies <> [] ->
  Forall (fun m => (0 < rating (snd m))%Q) movies ->
  (List.length movies <= fuel)%nat ->
  exists best worst front back,
    return_best_movie movies = Return (BestLine best)
    /\ return_worst_movie movies = Return (WorstLine worst)
    /\ sort_movies_by_rating fuel movies = Some (map MovieLine (best ++ back))
    /\ sort_movies_by_rating fuel movies = Some (map MovieLine (front ++ worst)).
Proof.
  intros Hne Hpos Hlen.
  assert (Hr : ratings movies <> []).
  { destruct movies; [congruence | discriminate]. }
  destruct (py_max_greatest _ Hr) as (hi & Hmax & _ & Hall_hi).
  destruct (py_min_least _ Hr) as (lo & Hmin & _ & Hall_lo).
  destruct (rating_loop_sorts fuel (entries movies))
    as (out & Hrun & Hperm & Hsorted & Hstable).
  { unfold entries. apply Forall_map. exact Hpos. }
  { unfold entries. now rewrite length_map. }
  rewrite ratings_of_entries in Hall_hi, Hall_lo.
  apply (proj1 (Forall_map e_rating (fun r => (r <= hi)%Q) (entries movies)))
    in Hall_hi.
  apply (proj1 (Forall_map e_rating (fun r => (lo <= r)%Q) (entries movies)))
    in Hall_lo.
  apply (Permutation_Forall Hperm) in Hall_hi.
  apply (Permutation_Forall Hperm) in Hall_lo.
  exists (of_rating hi (entries movies)), (of_rating lo (entries movies)),
    (filter (fun e => negb (Qeq_bool (e_rating e) lo)) out),
    (filter (fun e => negb (Qeq_bool (e_rating e) hi)) out).
  split; [unfold return_best_movie; now rewrite Hmax|].
  split; [unfold return_worst_movie; now rewrite Hmin|].
  unfold sort_movies_by_rating. destruct movies as [|m rest]; [congruence|].
  rewrite Hrun. unfold of_rating. rewrite <- !Hstable. split; do 2 f_equal.
  - now apply descending_front.
  - now apply descending_back.
Qed.

Lemma sort_movies_by_rating_scenario_best_first :
  exists best worst front back,
    return_best_movie scenario = Return (BestLine best)
    /\ return_worst_movie scenario = Return (WorstLine worst)
    /\ sort_movies_by_rating 3 scenario = Some (map MovieLine (best ++ back))
    /\ sort_movies_by_rating 3 scenario = Some (map MovieLine (front ++ worst)).
Proof.
  apply (sort_movies_by_rating_best_first_worst_last scenario 3).
  - discriminate.
  - repeat constructor.
  - simpl. lia.
Defined.

(** * Further properties of the statistics, the random pick and the search *)

Lemma calc_rating_median_member (movies : Movies) :
  movies <> [] ->
  exists v, calc_rating_median movies = Return (MedianLine v)
            /\ In v (ratings movies).
Proof.
  intros Hne.
  assert (Hlen : List.length (sorted (ratings movies)) = List.length movies).
  { rewrite sorted_length. unfold ratings. apply length_map. }
  destruct (nth_error (sorted (ratings movies)) (Nat.div (List.length movies) 2))
    as [v|] eqn:Hv.
  - exists v. split.
    + unfold calc_rating_median, list_index. rewrite Hlen, Hv. reflexivity.
    + apply nth_error_In in Hv.
      apply (Permutation_in _ (Permutation_sym (sorted_perm (ratings movies)))), Hv.
  - apply nth_error_None in Hv. rewrite Hlen in Hv.
    destruct movies as [|m rest]; [congruence|]. exfalso.
    pose proof (Nat.div_lt (List.length (m :: rest)) 2) as Hlt.
    simpl in Hlt, Hv. lia.
Qed.

(** X20: on a non-empty snapshot the median that [calc_rating_median]
    returns is the rating of some movie of the snapshot, and it lies
    between the rating of the worst movies and the rating of the best. *)
Theorem calc_rating_median_between_worst_and_best (movies : Movies) :
  movies <> [] ->
  exists v lo hi,
    calc_rating_median movies = Return (MedianLine v)
    /\ py_min (ratings movies) = Return lo
    /\ py_max (ratings movies) = Return hi
    /\ In v (ratings movies)
    /\ (lo <= v)%Q /\ (v <= hi)%Q.
Proof.
  intros Hne.
  assert (Hr : ratings movies <> []).
  { destruct movies; [congruence | discriminate]. }
  destruct (calc_rating_median_member movies Hne) as (v & Hmed & Hin).
  destruct (py_max_greatest _ Hr) as (hi & Hmax & _ & Hall_hi).
  destruct (py_min_least _ Hr) as (lo & Hmin & _ & Hall_lo).
  exists v, lo, hi. repeat split; auto.
  - exact (proj1 (Forall_forall _ _) Hall_lo v Hin).
  - exact (proj1 (Forall_forall _ _) Hall_hi v Hin).
Qed.

Lemma calc_rating_median_scenario_between :
  exists v lo hi,
    calc_rating_median scenario = Return (MedianLine v)
    /\ py_min (ratings scenario) = Return lo
    /\ py_max (ratings scenario) = Return hi
    /\ In v (ratings scenario)
    /\ (lo <= v)%Q /\ (v <= hi)%Q.
Proof.
  apply (calc_rating_median_between_worst_and_best scenario). discriminate.
Defined.

Lemma dict_get_unique (d : Movies) (k : string) (v : Info) :
  NoDup (keys d) -> In (k, v) d -> dict_get d k = Return v.
Proof.
  unfold keys. induction d as [|[k0 v0] rest IH]; simpl; [contradiction|].
  intros Hnd [Heq | Hin].
  - injection Heq as -> ->. now rewrite String.eqb_refl.
  - apply NoDup_cons_iff in Hnd as [Hfresh Hnd].
    destruct (String.eqb k0 k) eqn:E; [|now apply IH].
    apply String.eqb_eq in E. subst k0. exfalso. apply Hfresh.
    apply in_map_iff. now exists (k, v).
Qed.

(** X22: on a non-empty snapshot (a dict, so of distinct titles)
    [return_random_movie] returns, whatever number the generator draws,
    the one line of a movie of the snapshot with the rating of that movie;
    none of its [except] clauses is entered. *)
Theorem return_random_movie_picks_a_movie (draw : nat) (movies : Movies) :
  movies <> [] ->
  NoDup (keys movies) ->
  exists m, In m movies
            /\ return_random_movie draw movies
               = [TonightLine (fst m) (rating (snd m))].
Proof.
  intros Hne Hnd. unfold return_random_movie.
  destruct movies as [|m0 rest]; [congruence|].
  remember (m0 :: rest) as movies eqn:Hm.
  assert (Hlen : List.length (map fst movies) = S (List.length rest)).
  { rewrite Hm. cbn [map List.length]. now rewrite length_map. }
  rewrite Hlen. cbn [randrange bind].
  assert (Hlt : (Nat.modulo draw (S (List.length rest)) < List.length movies)%nat).
  { rewrite <- Hlen, length_map, <- (length_map fst), Hlen.
    apply Nat.mod_upper_bound. discriminate. }
  destruct (nth_error movies (Nat.modulo draw (S (List.length rest)))) as [m|] eqn:Hnth.
  - exists m. split; [now apply nth_error_In in Hnth|].
    unfold list_index. rewrite nth_error_map, Hnth. cbn [option_map bind].
    rewrite (dict_get_unique movies (fst m) (snd m) Hnd).
    + reflexivity.
    + apply nth_error_In in Hnth. now destruct m.
  - apply nth_error_None in Hnth. lia.
Qed.

Lemma return_random_movie_scenario :
  exists m, In m scenario
            /\ return_random_movie 7 scenario
               = [TonightLine (fst m) (rating (snd m))].
Proof.
  apply (return_random_movie_picks_a_movie 7 scenario).
  - discriminate.
  - repeat constructor; simpl; intuition discriminate.
Defined.

Lemma string_app_assoc (a b c : string) :
  ((a ++ b) ++ c)%string = (a ++ b ++ c)%string.
Proof. induction a as [|x a IH]; simpl; [reflexivity | now rewrite IH]. Qed.

Lemma string_app_nil_r (a : string) : (a ++ "")%string = a.
Proof. induction a as [|x a IH]; simpl; [reflexivity | now rewrite IH]. Qed.

(** X23: a shorter request finds at least what a longer one finds: when the
    request [short] occurs in the request [long], case ignored, every
    movie found for [long] is found for [short]. *)
Theorem search_shorter_request_finds_more (short long : string)
  (movies : Movies) (m : string * Info) :
  contains_ci short long ->
  In m (search_matches (lower long) movies) ->
  In m (search_matches (lower short) movies).
Proof.
  intros (pre & post & Hshort) Hfound.
  apply search_matches_iff in Hfound as (Hin & pre' & post' & Hlong).
  apply search_matches_iff. split; [assumption|].
  exists (pre' ++ pre)%string, (post ++ post')%string.
  rewrite Hlong, Hshort. now rewrite !string_app_assoc.
Qed.

Lemma search_shorter_request_three_titles :
  In ("Batman", mkInfo 1989 (75 # 10)) (search_matches (lower "AT") three_titles).
Proof.
  apply (search_shorter_request_finds_more "AT" "batMAN" three_titles).
  - exists "b"%string, "man"%string. reflexivity.
  - simpl. auto.
Defined.

(** X24: a request that is the title of a movie of the snapshot, in any
    letter case, finds that movie: its line is among the lines returned,
    and the not-found line is not returned. *)
Theorem search_by_title_finds_the_movie (search_request : string)
  (movies : Movies) (m : string * Info) :
  In m movies ->
  lower search_request = lower (fst m) ->
  In (MovieLine (entry_of m)) (search_for_movie_in_dict search_request movies)
  /\ search_for_movie_in_dict search_request movies
     <> [NotFoundLine search_request].
Proof.
  intros Hin Hsame.
  assert (Hfound : In m (search_matches (lower search_request) movies)).
  { apply search_matches_iff. split; [assumption|].
    exists EmptyString, EmptyString. simpl.
    now rewrite string_app_nil_r. }
  rewrite search_returns.
  destruct (search_matches (lower search_request) movies) as [|x xs] eqn:E;
    [destruct Hfound|].
  split.
  - apply (in_map (fun m => MovieLine (entry_of m)) (x :: xs) m Hfound).
  - discriminate.
Qed.

Lemma search_by_title_batman :
  In (MovieLine (entry_of ("Batman", mkInfo 1989 (75 # 10))))
     (search_for_movie_in_dict "batMAN" three_titles)
  /\ search_for_movie_in_dict "batMAN" three_titles <> [NotFoundLine "batMAN"].
Proof.
  apply (search_by_title_finds_the_movie "batMAN" three_titles
           ("Batman", mkInfo 1989 (75 # 10))).
  - simpl. auto.
  - reflexivity.
Defined.

(** * The sorts on snapshots whose cells need not be numbers *)

Lemma scan_raw_text (rkey : RawEntry -> Cell) (lst : list RawEntry) :
  Exists (fun e => is_text (rkey e) = true) lst ->
  forall k best_movie, scan_raw rkey lst (Num k) best_movie = Raise TYPE_ERROR.
Proof.
  induction lst as [|e rest IH]; intros Hex k best_movie; [inversion Hex|].
  cbn [scan_raw]. destruct (rkey e) as [x|t] eqn:Ekey; [|reflexivity].
  assert (Hrest : Exists (fun e => is_text (rkey e) = true) rest).
  { inversion Hex as [? ? Hhead|? ? Htail]; subst; [|assumption].
    rewrite Ekey in Hhead. discriminate. }
  cbn [cell_gt bind]. destruct (Qgtb x k); now apply IH.
Qed.

Lemma selection_loop_raw_text (rkey : RawEntry -> Cell) (fuel : nat)
  (lst sorted_lst : list RawEntry) :
  Exists (fun e => is_text (rkey e) = true) lst ->
  selection_loop_raw rkey (S fuel) lst sorted_lst = Some (Raise TYPE_ERROR).
Proof.
  intros Hex. destruct lst as [|e rest]; [inversion Hex|].
  cbn [selection_loop_raw]. now rewrite (scan_raw_text rkey (e :: rest) Hex).
Qed.

(** X15: a cell that is text in the column a sort works on -- a rating that
    is not a number for [sort_movies_by_rating], a year that is not a
    number for [sort_movies_by_year] -- makes the first round of the loop
    raise a [TypeError]: the function sorts nothing and answers with its
    unexpected-error line, whatever the other movies are and before the
    user is asked for a direction. *)
Theorem sorts_answer_a_text_cell_with_an_error (movies : RawMovies) (fuel : nat)
  (inputs : list string) :
  (Exists (fun m => is_text (raw_rating (snd m)) = true) movies ->
   sort_movies_by_rating_raw (S fuel) movies
   = Some [Plain (UnexpectedLine TYPE_ERROR)])
  /\ (Exists (fun m => is_text (raw_year (snd m)) = true) movies ->
      sort_movies_by_year_raw (S fuel) inputs movies
      = Some [Plain (UnexpectedLine TYPE_ERROR)]).
Proof.
  split; intros Hex.
  - unfold sort_movies_by_rating_raw.
    destruct movies as [|m rest]; [inversion Hex|].
    rewrite selection_loop_raw_text; [reflexivity|].
    unfold raw_entries. apply Exists_map. exact Hex.
  - unfold sort_movies_by_year_raw.
    destruct movies as [|m rest]; [inversion Hex|].
    rewrite selection_loop_raw_text; [reflexivity|].
    unfold raw_entries. apply Exists_map. exact Hex.
Qed.

Lemma sorts_answer_unrated_and_series :
  sort_movies_by_rating_raw 1 unrated_and_series
  = Some [Plain (UnexpectedLine TYPE_ERROR)]
  /\ sort_movies_by_year_raw 1 ["old"] unrated_and_series
     = Some [Plain (UnexpectedLine TYPE_ERROR)].
Proof.
  destruct (sorts_answer_a_text_cell_with_an_error unrated_and_series 0 ["old"])
    as [Hrating Hyear].
  split.
  - apply Hrating. apply Exists_cons_tl, Exists_cons_hd. reflexivity.
  - apply Hyear. apply Exists_cons_tl, Exists_cons_tl, Exists_cons_hd. reflexivity.
Defined.

Lemma Qeq_bool_inject_Z (a b : Z) : Qeq_bool (inject_Z a) (inject_Z b) = Z.eqb a b.
Proof.
  apply eq_true_iff_eq. now rewrite Qeq_bool_iff, inject_Z_injective, Z.eqb_eq.
Qed.

Lemma Qgtb_inject_Z (a b : Z) : Qgtb (inject_Z a) (inject_Z b) = Zgtb a b.
Proof.
  apply eq_true_iff_eq. rewrite Qgtb_true, Zgtb_true, Zlt_Qlt. reflexivity.
Qed.

Lemma RawEntry_eqb_raw_entry (a b : Entry) :
  RawEntry_eqb (raw_entry a) (raw_entry b) = Entry_eqb a b.
Proof.
  unfold RawEntry_eqb, Entry_eqb. simpl. now rewrite Qeq_bool_inject_Z.
Qed.

Lemma list_remove_raw_refines (x : Entry) (lst : list Entry) :
  list_remove_raw (raw_entry x) (map raw_entry lst) = raw_result (list_remove x lst).
Proof.
  induction lst as [|item rest IH]; simpl; [reflexivity|].
  rewrite RawEntry_eqb_raw_entry. destruct (Entry_eqb item x); [reflexivity|].
  rewrite IH. now destruct (list_remove x rest).
Qed.

Section Refinement.
Variable K : Type.
Variable key : Entry -> K.
Variable gtb : K -> K -> bool.
Variable zero : K.
Variable number : K -> Q.
Variable rkey : RawEntry -> Cell.

Hypothesis rkey_number : forall e, rkey (raw_entry e) = Num (number (key e)).
Hypothesis gtb_number : forall a b, Qgtb (number a) (number b) = gtb a b.
Hypothesis zero_number : number zero = 0%Q.

Lemma scan_raw_refines (lst : list Entry) : forall k best_movie,
  scan_raw rkey (map raw_entry lst) (Num (number k)) (option_map raw_entry best_movie)
  = Return (option_map raw_entry (scan K key gtb lst k best_movie)).
Proof.
  induction lst as [|m rest IH]; intros k best_movie; [reflexivity|].
  cbn [map scan_raw scan]. rewrite rkey_number. cbn [cell_gt bind].
  rewrite gtb_number. destruct (gtb (key m) k).
  - apply (IH (key m) (Some m)).
  - apply IH.
Qed.

Lemma selection_loop_raw_refines (fuel : nat) : forall lst sorted_lst,
  selection_loop_raw rkey fuel (map raw_entry lst) (map raw_entry sorted_lst)
  = option_map raw_result (selection_loop K key gtb zero fuel lst sorted_lst).
Proof.
  induction fuel as [|fuel IH]; intros lst sorted_lst.
  - now destruct lst.
  - destruct lst as [|m rest]; [reflexivity|].
    cbn [selection_loop].
    change (selection_loop_raw rkey (S fuel) (map raw_entry (m :: rest))
              (map raw_entry sorted_lst))
      with (match scan_raw rkey (map raw_entry (m :: rest)) (Num 0) None with
            | Raise e => Some (Raise e)
            | Return (Some best_movie) =>
                match list_remove_raw best_movie (map raw_entry (m :: rest)) with
                | Return rest' =>
                    selection_loop_raw rkey fuel rest'
                      (map raw_entry sorted_lst ++ [best_movie])
                | Raise e => Some (Raise e)
                end
            | Return None =>
                selection_loop_raw rkey fuel (map raw_entry (m :: rest))
                  (map raw_entry sorted_lst)
            end).
    pose proof (scan_raw_refines (m :: rest) zero None) as Hscan.
    rewrite zero_number in Hscan.
    change (option_map raw_entry None) with (@None RawEntry) in Hscan.
    rewrite Hscan.
    destruct (scan K key gtb (m :: rest) zero None) as [best_movie|];
      cbn [option_map].
    + rewrite list_remove_raw_refines.
      destruct (list_remove best_movie (m :: rest)) as [rest'|e];
        cbn [raw_result]; [|reflexivity].
      rewrite <- IH, map_app. reflexivity.
    + apply IH.
Qed.
End Refinement.

Lemma raw_entries_raw_movies (movies : Movies) :
  raw_entries (raw_movies movies) = map raw_entry (entries movies).
Proof.
  unfold raw_entries, raw_movies, entries. now rewrite !map_map.
Qed.

Lemma handle_lines_are_plain (on_value_error : string) (e : Exc) :
  map Plain (handle on_value_error e) = map raw_line (handle on_value_error e).
Proof. now destruct e. Qed.

(** On a snapshot of numbers the two sorts are the sorts of the first
    part, line by line. *)
Lemma sort_movies_by_rating_raw_refines (fuel : nat) (movies : Movies) :
  sort_movies_by_rating_raw fuel (raw_movies movies)
  = option_map (map raw_line) (sort_movies_by_rating fuel movies).
Proof.
  unfold sort_movies_by_rating_raw, sort_movies_by_rating.
  destruct movies as [|m rest]; [reflexivity|].
  change (raw_movies (m :: rest)) with ((fst m, raw_info (snd m)) :: raw_movies rest).
  cbv iota.
  change ((fst m, raw_info (snd m)) :: raw_movies rest) with (raw_movies (m :: rest)).
  rewrite raw_entries_raw_movies.
  rewrite (selection_loop_raw_refines Q e_rating Qgtb 0%Q (fun q => q) r_rating)
    with (sorted_lst := @nil Entry); try reflexivity.
  destruct (selection_loop Q e_rating Qgtb 0%Q fuel (entries (m :: rest)) [])
    as [[sorted_lst|e]|]; cbn [option_map raw_result]; [| |reflexivity].
  - now rewrite !map_map.
  - now rewrite handle_lines_are_plain.
Qed.

Lemma choose_direction_raw_refines (inputs : list string) (sorted_lst : list Entry) :
  choose_direction_raw inputs (map raw_entry sorted_lst)
  = match choose_direction inputs sorted_lst with
    | Return result_lst => Return (map raw_line result_lst)
    | Raise e => Raise e
    end.
Proof.
  induction inputs as [|user_input later IH]; [reflexivity|].
  cbn [choose_direction_raw choose_direction].
  destruct (String.eqb user_input "b"); [reflexivity|].
  destruct (String.eqb user_input "old").
  { now rewrite <- map_rev, !map_map. }
  destruct (String.eqb user_input "young").
  { now rewrite !map_map. }
  exact IH.
Qed.

Lemma sort_movies_by_year_raw_refines (fuel : nat) (inputs : list string)
  (movies : Movies) :
  sort_movies_by_year_raw fuel inputs (raw_movies movies)
  = option_map (map raw_line) (sort_movies_by_year fuel inputs movies).
Proof.
  unfold sort_movies_by_year_raw, sort_movies_by_year.
  destruct movies as [|m rest]; [reflexivity|].
  change (raw_movies (m :: rest)) with ((fst m, raw_info (snd m)) :: raw_movies rest).
  cbv iota.
  change ((fst m, raw_info (snd m)) :: raw_movies rest) with (raw_movies (m :: rest)).
  rewrite raw_entries_raw_movies.
  rewrite (selection_loop_raw_refines Z e_year Zgtb 0%Z inject_Z r_year)
    with (sorted_lst := @nil Entry);
    [|reflexivity|apply Qgtb_inject_Z|reflexivity].
  destruct (selection_loop Z e_year Zgtb 0 fuel (entries (m :: rest)) [])
    as [[sorted_lst|e]|]; cbn [option_map raw_result]; [| |reflexivity].
  - rewrite choose_direction_raw_refines.
    destruct (choose_direction inputs sorted_lst) as [result_lst|e];
      cbn [option_map]; [reflexivity|].
    now rewrite handle_lines_are_plain.
  - now rewrite handle_lines_are_plain.
Qed.

Lemma sort_movies_by_rating_returns (movies : Movies) :
  movies <> [] ->
  ((exists fuel lines, sort_movies_by_rating fuel movies = Some lines)
   <-> Forall (fun m => (0 < rating (snd m))%Q) movies).
Proof.
  intros Hne. split.
  - intros (fuel & lines & Hrun).
    destruct (positive_or_not (fun m : string * Info => (0 < rating (snd m))%Q)
                (fun m => (rating (snd m) <= 0)%Q) movies) as [H|H]; [|assumption|].
    + intros m. destruct (Qlt_le_dec 0 (rating (snd m))); auto.
    + rewrite (sort_movies_by_rating_diverges movies fuel H) in Hrun. discriminate.
  - intros Hpos.
    destruct (rating_loop_sorts (List.length movies) (entries movies))
      as (out & Hrun & _).
    + unfold entries. apply Forall_map. exact Hpos.
    + unfold entries. now rewrite length_map.
    + exists (List.length movies), (map MovieLine out).
      unfold sort_movies_by_rating. destruct movies; [congruence|].
      now rewrite Hrun.
Qed.

Lemma sort_movies_by_rating_lines (movies : Movies) (fuel : nat) (lines : list Line) :
  movies <> [] ->
  sort_movies_by_rating fuel movies = Some lines ->
  exists out, lines = map MovieLine out /\ Permutation (entries movies) out.
Proof.
  intros Hne. unfold sort_movies_by_rating.
  destruct movies as [|m rest]; [congruence|].
  destruct (selection_loop Q e_rating Qgtb 0%Q fuel (entries (m :: rest)) [])
    as [r|] eqn:Hrun; [|discriminate].
  apply rating_loop_result in Hrun as (out & -> & Hperm).
  intros H. injection H as <-. now exists out.
Qed.

Lemma sort_movies_by_year_returns (movies : Movies) (inputs : list string) :
  movies <> [] ->
  ((exists fuel lines, sort_movies_by_year fuel inputs movies = Some lines)
   <-> Forall (fun m => 0 < year (snd m)) movies).
Proof.
  intros Hne. split.
  - intros (fuel & lines & Hrun).
    destruct (positive_or_not (fun m : string * Info => 0 < year (snd m))
                (fun m => year (snd m) <= 0) movies) as [H|H]; [|assumption|].
    + intros m. lia.
    + rewrite (sort_movies_by_year_diverges movies fuel inputs H) in Hrun.
      discriminate.
  - intros Hpos.
    destruct (year_loop_sorts (List.length movies) (entries movies))
      as (out & Hrun & _).
    + unfold entries. apply Forall_map. exact Hpos.
    + unfold entries. now rewrite length_map.
    + exists (List.length movies).
      unfold sort_movies_by_year. destruct movies; [congruence|].
      rewrite Hrun. destruct (choose_direction inputs out); eauto.
Qed.

Lemma option_map_some {A B : Type} (f : A -> B) (o : option A) (b : B) :
  option_map f o = Some b <-> exists a, o = Some a /\ b = f a.
Proof.
  destruct o as [a|]; simpl; split.
  - intros H. injection H as <-. now exists a.
  - intros (a' & H & ->). now injection H as ->.
  - discriminate.
  - intros (a' & H & _). discriminate.
Qed.

(** X16: on a non-empty snapshot whose years and ratings are all numbers,
    [sort_movies_by_rating] returns exactly when every rating is greater
    than 0 -- with a rating of 0 or less the loop never ends -- and what it
    returns is then one movie line per entry of the snapshot, each entry
    once: no [except] clause is entered. *)
Theorem sort_movies_by_rating_on_numbers (movies : Movies) :
  movies <> [] ->
  ((exists fuel lines,
       sort_movies_by_rating_raw fuel (raw_movies movies) = Some lines)
   <-> Forall (fun m => (0 < rating (snd m))%Q) movies)
  /\ forall fuel lines,
       sort_movies_by_rating_raw fuel (raw_movies movies) = Some lines ->
       exists out,
         lines = map RawMovieLine (map raw_entry out)
         /\ Permutation (entries movies) out.
Proof.
  intros Hne. split.
  - rewrite <- (sort_movies_by_rating_returns movies Hne).
    split; intros (fuel & lines & Hrun); exists fuel.
    + rewrite sort_movies_by_rating_raw_refines in Hrun.
      apply option_map_some in Hrun as (l & Hl & _). now exists l.
    + exists (map raw_line lines).
      now rewrite sort_movies_by_rating_raw_refines, Hrun.
  - intros fuel lines Hrun.
    rewrite sort_movies_by_rating_raw_refines in Hrun.
    apply option_map_some in Hrun as (l & Hl & ->).
    apply (sort_movies_by_rating_lines movies fuel l Hne) in Hl as (out & -> & Hperm).
    exists out. split; [now rewrite !map_map | assumption].
Qed.

Lemma sort_movies_by_rating_on_scenario :
  ((exists fuel lines,
       sort_movies_by_rating_raw fuel (raw_movies scenario) = Some lines)
   <-> Forall (fun m => (0 < rating (snd m))%Q) scenario)
  /\ forall fuel lines,
       sort_movies_by_rating_raw fuel (raw_movies scenario) = Some lines ->
       exists out,
         lines = map RawMovieLine (map raw_entry out)
         /\ Permutation (entries scenario) out.
Proof.
  apply (sort_movies_by_rating_on_numbers scenario). discriminate.
Defined.

(** X17: on a non-empty snapshot whose years and ratings are all numbers,
    [sort_movies_by_year] returns exactly when every year is greater than
    0, whatever the user is going to type: the direction is asked for only
    after the loop, which never ends on a year of 0 or less. *)
Theorem sort_movies_by_year_on_numbers (movies : Movies) (inputs : list string) :
  movies <> [] ->
  ((exists fuel lines,
       sort_movies_by_year_raw fuel inputs (raw_movies movies) = Some lines)
   <-> Forall (fun m => 0 < year (snd m)) movies).
Proof.
  intros Hne. rewrite <- (sort_movies_by_year_returns movies inputs Hne).
  split; intros (fuel & lines & Hrun); exists fuel.
  - rewrite sort_movies_by_year_raw_refines in Hrun.
    apply option_map_some in Hrun as (l & Hl & _). now exists l.
  - exists (map raw_line lines).
    now rewrite sort_movies_by_year_raw_refines, Hrun.
Qed.

Lemma sort_movies_by_year_on_scenario :
  (exists fuel lines,
      sort_movies_by_year_raw fuel ["old"] (raw_movies scenario) = Some lines)
  <-> Forall (fun m => 0 < year (snd m)) scenario.
Proof.
  apply (sort_movies_by_year_on_numbers scenario ["old"]). discriminate.
Defined.
